(** * scrape_tools.py: a shallow embedding and its verified properties

    The program reads one markdown document, extracts the tool URLs, visits
    each of them and derives a record per URL with string heuristics, and
    writes the records to a CSV and a JSON file.

    Python [str] values are sequences of Unicode code points: they are
    modelled as lists of code points ([N]).  Sets are [gset]s, the file
    system is a [gmap] from file names to contents.  The third-party HTML
    parser, [urllib.parse] and the network are interfaces (type classes)
    the program is parametric in; so are the inputs on which the
    libraries raise an exception instead of returning.  The console and
    the file system take every line and every file they are given. *)

From Stdlib Require Import NArith ZArith Ascii String.
From Stdlib Require QArith.
From stdpp Require Import gmap list sorting.

Local Open Scope N_scope.

(** ** Python strings *)

Abbreviation char := N (only parsing).
Abbreviation str := (list N) (only parsing).

(** An ASCII literal as a Python string. *)
Definition lit (s : String.string) : str :=
  map N_of_ascii (String.list_ascii_of_string s).

Definition chr (a : ascii) : char := N_of_ascii a.

(** [str.isspace] on one code point ([Py_UNICODE_ISSPACE]); it is also
    what the regular expression class [\s] matches on [str] patterns. *)
Definition isspace (c : char) : bool :=
  ((9 <=? c) && (c <=? 13)) || ((28 <=? c) && (c <=? 32))
  || (c =? 133) || (c =? 160) || (c =? 5760)
  || ((8192 <=? c) && (c <=? 8202))
  || (c =? 8232) || (c =? 8233) || (c =? 8239) || (c =? 8287)
  || (c =? 12288).

Definition truthy (s : str) : bool :=
  match s with [] => false | _ => true end.

(** [s.startswith(p)] *)
Fixpoint startswith (p s : str) : bool :=
  match p, s with
  | [], _ => true
  | _ :: _, [] => false
  | a :: p', b :: s' => (a =? b) && startswith p' s'
  end.

(** [sub in s] *)
Fixpoint contains (sub s : str) : bool :=
  startswith sub s ||
  match s with
  | [] => false
  | _ :: s' => contains sub s'
  end.

(** [s.partition(sep)]: the text before and after the first occurrence of
    [sep], or [None] when [sep] does not occur. *)
Fixpoint partition (sep s : str) : option (str * str) :=
  if startswith sep s then Some ([], drop (length sep) s)
  else match s with
       | [] => None
       | c :: s' =>
           match partition sep s' with
           | Some (a, b) => Some (c :: a, b)
           | None => None
           end
       end.

(** [s.split(sep, maxsplit)] for a non-negative [maxsplit]. *)
Fixpoint split_n (maxsplit : nat) (sep s : str) : list str :=
  match maxsplit with
  | O => [s]
  | S n =>
      match partition sep s with
      | Some (a, b) => a :: split_n n sep b
      | None => [s]
      end
  end.

(** [s.split(sep)]: no bound on the number of splits; a non-empty
    separator occurs at most [len(s)] times. *)
Definition split (sep s : str) : list str := split_n (length s) sep s.

(** [s.replace(old, new, count)] *)
Fixpoint replace_n (count : nat) (old new s : str) : str :=
  match count with
  | O => s
  | S n =>
      match partition old s with
      | Some (a, b) => a ++ new ++ replace_n n old new b
      | None => s
      end
  end.

(** [s.replace(old, new)] *)
Definition replace (old new s : str) : str := replace_n (length s) old new s.

Fixpoint lstrip (s : str) : str :=
  match s with
  | c :: s' => if isspace c then lstrip s' else s
  | [] => []
  end.

Definition rstrip (s : str) : str := rev (lstrip (rev s)).

(** [s.strip()] *)
Definition strip (s : str) : str := rstrip (lstrip s).

(** [sep.join(l)] *)
Fixpoint join (sep : str) (l : list str) : str :=
  match l with
  | [] => []
  | [x] => x
  | x :: l' => x ++ sep ++ join sep l'
  end.

(** Comparison of strings, [a <= b] in Python: lexicographic on code
    points. *)
Fixpoint str_leb (a b : str) : bool :=
  match a, b with
  | [], _ => true
  | _ :: _, [] => false
  | x :: a', y :: b' =>
      if x <? y then true else if x =? y then str_leb a' b' else false
  end.

Definition str_le (a b : str) : Prop := str_leb a b = true.

Definition str_lt (a b : str) : Prop := str_le a b ∧ a ≠ b.

Global Instance str_le_dec a b : Decision (str_le a b).
Proof. unfold str_le. apply _. Defined.

(** [sorted(xs)] on strings. *)
Definition sorted (xs : list str) : list str := merge_sort str_le xs.

(** ** Regular expressions

    The two patterns of the program are sequences of literals and of
    greedy repetitions of one character class.  [match_items] is the
    backtracking matcher of [re] on that fragment: a repetition first
    takes as many characters as it can and gives them back one at a time
    while the rest of the pattern fails. *)

Inductive item :=
| Lit (s : str)
| Rep (cls : char → bool) (lo : nat) (hi : option nat).

Fixpoint rep {R} (cls : char → bool) (lo : nat) (hi : option nat)
    (k : str → option R) (s : str) : option (str * R) :=
  let stop :=
    match lo with
    | O => match k s with Some r => Some ([], r) | None => None end
    | S _ => None
    end in
  match s with
  | c :: s' =>
      if cls c && negb (bool_decide (hi = Some O)) then
        match rep cls (pred lo) (pred <$> hi) k s' with
        | Some (seg, r) => Some (c :: seg, r)
        | None => stop
        end
      else stop
  | [] => stop
  end.

(** The text matched by each item, and the rest of the subject. *)
Fixpoint match_items (its : list item) (s : str) : option (list str * str) :=
  match its with
  | [] => Some ([], s)
  | Lit l :: its' =>
      if startswith l s then
        match match_items its' (drop (length l) s) with
        | Some (segs, r) => Some (l :: segs, r)
        | None => None
        end
      else None
  | Rep cls lo hi :: its' =>
      match rep cls lo hi (match_items its') s with
      | Some (seg, (segs, r)) => Some (seg :: segs, r)
      | None => None
      end
  end.

(** A pattern with the part [findall] returns: group 1 when the pattern
    has a group, the whole match ([before = after = []]) otherwise. *)
Record pattern := {
  before : list item;
  captured : list item;
  after : list item
}.

(** A match at the start of [s]: the captured text and the number of
    characters the whole match consumed. *)
Definition match_at (p : pattern) (s : str) : option (str * nat) :=
  match match_items (before p ++ captured p ++ after p) s with
  | Some (segs, r) =>
      Some (concat (take (length (captured p)) (drop (length (before p)) segs)),
            (length s - length r)%nat)
  | None => None
  end.

(** [pattern.findall(s)]: the matches found scanning from the left, each
    search starting where the previous match ended.  [skip] counts the
    characters of the last match still to pass.  (Neither pattern of the
    program matches the empty string.) *)
Fixpoint findall_go (p : pattern) (skip : nat) (s : str) : list str :=
  match s with
  | [] => []
  | _ :: s' =>
      match skip with
      | S k => findall_go p k s'
      | O =>
          match match_at p s with
          | Some (g, n) => g :: findall_go p (pred n) s'
          | None => findall_go p O s'
          end
      end
  end.

Definition findall (p : pattern) (s : str) : list str := findall_go p O s.

(** ** extract_tool_links *)

(** [r'\((https?://[^\s)]+)\)'] *)
Definition url_char (c : char) : bool :=
  negb (isspace c || (c =? chr ")")).

Definition url_pattern : pattern := {|
  before := [Lit (lit "(")];
  captured := [Lit (lit "http"); Rep (N.eqb (chr "s")) 0 (Some 1%nat);
               Lit (lit "://"); Rep url_char 1 None];
  after := [Lit (lit ")")]
|}.

Definition REPO : str := lit "github.com/yousefebrahimi0/1000-AI-collection-tools".

Definition extract_tool_links (markdown_text : str) : list str :=
  let urls : gset str := list_to_set (findall url_pattern markdown_text) in
  let filtered :=
    filter (λ url, contains REPO url = false) (elements urls) in
  sorted filtered.


(** ** The libraries the program calls

    [BeautifulSoup(html, "html.parser")] is third-party code: the program
    only reads, from the parsed document, the string of the title element,
    the [meta] elements and the [a] elements that carry an [href], in
    document order. *)

Record meta_tag := {
  meta_property : option str;   (* the [property] attribute *)
  meta_content : option str     (* [tag.get("content")] *)
}.

Record anchor := {
  href : str;       (* [a["href"]] *)
  get_text : str    (* [a.get_text()] *)
}.

Record Soup := {
  title_string : option str;    (* [soup.title.string], when both exist *)
  metas : list meta_tag;        (* [meta] elements, document order *)
  anchors : list anchor         (* [soup.find_all("a", href=True)] *)
}.

Class Libs := {
  BeautifulSoup : str → Soup;       (* parse with "html.parser" *)
  urlparse_netloc : str → str;      (* [urlparse(url).netloc] *)
  urljoin : str → str → str;        (* [urllib.parse.urljoin] *)
  lower : str → str                 (* [str.lower] *)
}.

(** [requests.get(url, headers=HEADERS, timeout=20)] followed by
    [raise_for_status()]: the text of the response, or [None] when either
    raises.  The answer may change from one request to the next: [n] is
    the number of requests made before this one. *)
Class Network := {
  requests_get : nat → str → option str
}.

(** ** guess_product_name_and_company *)

(** [soup.find("meta", property=p)]: the first [meta] element whose
    [property] attribute is [p]. *)
Definition find_meta (soup : Soup) (p : str) : option meta_tag :=
  snd <$> list_find (λ m, meta_property m = Some p) (metas soup).

(** The stripped [content] of the tag found, when the tag exists and its
    content is a non-empty string. *)
Definition meta_content_of (tag : option meta_tag) : str :=
  match tag with
  | Some m =>
      match meta_content m with
      | Some c => if truthy c then strip c else []
      | None => []
      end
  | None => []
  end.

Definition en_dash : char := 8211.   (* U+2013 *)
Definition bullet : char := 8226.    (* U+2022 *)
Definition em_dash : char := 8212.   (* U+2014 *)

Definition separators : list str :=
  [lit "|"; [en_dash]; lit "-"; [bullet]; [em_dash]].

(** [[p.strip() for p in name.split(sep) if p.strip()]] *)
Definition parts_of (sep name : str) : list str :=
  strip <$> filter (λ p, truthy (strip p) = true) (split sep name).

(** The two cleanup loops: the first separator, in the order of the list,
    that occurs in the name and leaves a non-empty part decides; [pick]
    is [parts[0]] for the product and [parts[-1]] for the company. *)
Fixpoint cleanup (pick : list str → option str) (seps : list str)
    (name : str) : str :=
  match seps with
  | [] => name
  | sep :: seps' =>
      if contains sep name then
        match pick (parts_of sep name) with
        | Some part => part
        | None => cleanup pick seps' name
        end
      else cleanup pick seps' name
  end.

(** [a or b] on strings *)
Definition or_else (a b : str) : str := if truthy a then a else b.

Definition guess_product_name_and_company `{Libs} (html url : str)
    : str * str :=
  let soup := BeautifulSoup html in
  let title :=
    match title_string soup with
    | Some s => if truthy s then strip s else []
    | None => []
    end in
  let og_site_name := meta_content_of (find_meta soup (lit "og:site_name")) in
  let og_title := meta_content_of (find_meta soup (lit "og:title")) in
  let product_name := or_else og_title title in
  let company_name := or_else og_site_name title in
  let product_name := cleanup head separators product_name in
  let company_name := cleanup last separators company_name in
  let company_name :=
    if truthy company_name then company_name
    else replace (lit "www.") [] (urlparse_netloc url) in
  let product_name :=
    if truthy product_name then product_name else company_name in
  (product_name, company_name).

(** ** extract_emails *)

(** [href.split("mailto:", 1)[1].split("?", 1)[0]] *)
Definition mailto_target (h : str) : str :=
  default [] (head (split_n 1 (lit "?")
    (default [] (split_n 1 (lit "mailto:") h !! 1%nat)))).

Definition mailto_targets (soup : Soup) : list str :=
  mailto_target <$>
    filter (λ h, startswith (lit "mailto:") h = true) (href <$> anchors soup).

Definition in_range (a b : ascii) (c : char) : bool :=
  (N_of_ascii a <=? c) && (c <=? N_of_ascii b).

Definition one_of (s : String.string) (c : char) : bool :=
  bool_decide (c ∈ lit s).

Definition alnum (c : char) : bool :=
  in_range "A" "Z" c || in_range "a" "z" c || in_range "0" "9" c.

Definition alpha (c : char) : bool :=
  in_range "A" "Z" c || in_range "a" "z" c.

(** [r"[A-Za-z0-9._%+-]+@[A-Za-z0-9.-]+\.[A-Za-z]{2,}"] *)
Definition plain_email_pattern : pattern := {|
  before := [];
  captured := [Rep (λ c, alnum c || one_of "._%+-" c) 1 None;
               Lit (lit "@");
               Rep (λ c, alnum c || one_of ".-" c) 1 None;
               Lit (lit ".");
               Rep alpha 2 None];
  after := []
|}.

Definition extract_emails `{Libs} (html : str) : list str :=
  let soup := BeautifulSoup html in
  let emails : gset str := list_to_set (mailto_targets soup) in
  let emails := emails ∪ list_to_set (findall plain_email_pattern html) in
  sorted (elements emails).

(** ** extract_social_links *)

Definition social_step (acc : str * str) (a : anchor) : str * str :=
  let '(linkedin_url, twitter_url) := acc in
  let h := href a in
  let linkedin_url :=
    if contains (lit "linkedin.com") h && negb (truthy linkedin_url)
    then h else linkedin_url in
  let twitter_url :=
    if (contains (lit "twitter.com") h || contains (lit "x.com") h)
       && negb (truthy twitter_url)
    then h else twitter_url in
  (linkedin_url, twitter_url).

Definition extract_social_links `{Libs} (html : str) : str * str :=
  foldl social_step ([], []) (anchors (BeautifulSoup html)).

(** ** find_careers_page *)

Definition careers_keywords : list str :=
  [lit "careers"; lit "jobs"; lit "join-us"; lit "joinus";
   lit "work-with-us"; lit "work with us"].

Definition any_in (kws : list str) (s : str) : bool :=
  existsb (λ kw, contains kw s) kws.

Definition find_careers_page `{Libs} (html base_url : str) : str :=
  match list_find
          (λ a, any_in careers_keywords (lower (href a))
                || any_in careers_keywords
                     (lower (strip (or_else (get_text a) []))) = true)
          (anchors (BeautifulSoup html)) with
  | Some (_, a) => urljoin base_url (href a)
  | None => []
  end.

(** ** Exceptions of the libraries

    A call of a library can raise instead of returning: the parser on
    markup it rejects, [urlparse] and [urljoin] on a URL they reject,
    [time.sleep] on a delay it rejects (a negative one).  The functions
    above give the value of a call that returns; the functions below say
    when a call raises.  Only [fetch_html] catches exceptions: raised
    anywhere else, an exception ends the function that is running and
    its callers. *)
Class Failures := {
  parser_rejects : str → bool;        (* [BeautifulSoup(html, "html.parser")] *)
  urlparse_rejects : str → bool;      (* [urlparse(url)] *)
  urljoin_rejects : str → str → bool  (* [urljoin(base_url, href)] *)
}.

Class Clock (T : Type) := {
  sleep_rejects : T → bool            (* [time.sleep(delay)] *)
}.

(** The company name before the fallback to the URL. *)
Definition company_from_page `{Libs} (html : str) : str :=
  let soup := BeautifulSoup html in
  let title :=
    match title_string soup with
    | Some s => if truthy s then strip s else []
    | None => []
    end in
  let og_site_name := meta_content_of (find_meta soup (lit "og:site_name")) in
  cleanup last separators (or_else og_site_name title).

(** [guess_product_name_and_company] parses the page, and asks
    [urlparse] only when the page gives no company name. *)
Definition guess_product_name_and_company_raises `{Libs} `{Failures}
    (html url : str) : bool :=
  parser_rejects html
  || (negb (truthy (company_from_page html)) && urlparse_rejects url).

Definition extract_emails_raises `{Failures} (html : str) : bool :=
  parser_rejects html.

Definition extract_social_links_raises `{Failures} (html : str) : bool :=
  parser_rejects html.

(** [find_careers_page] parses the page, and asks [urljoin] only for the
    link it returns. *)
Definition find_careers_page_raises `{Libs} `{Failures}
    (html base_url : str) : bool :=
  parser_rejects html
  || match list_find
             (λ a, any_in careers_keywords (lower (href a))
                   || any_in careers_keywords
                        (lower (strip (or_else (get_text a) []))) = true)
             (anchors (BeautifulSoup html)) with
     | Some (_, a) => urljoin_rejects base_url (href a)
     | None => false
     end.

(** ** scrape_all_tools *)

Definition GITHUB_URL : str :=
  lit "https://raw.githubusercontent.com/yousefebrahimi0/1000-AI-collection-tools/main/README.md".

(** The dictionaries the program builds all have the same seven keys. *)
Record ToolRecord := {
  product_name : str;
  company : str;
  email : str;
  linkedin_url : str;
  twitter_url : str;
  careers_page : str;
  tool_url : str
}.

(** What the program does to the outside world, in order: the requests it
    sends, the lines it prints and the pauses it makes. *)
Inductive message :=
| Found (n : nat)                      (* "Found n candidate tool URLs" *)
| Processing (i n : nat) (url : str)   (* "[i/n] Processing url" *)
| WarnFailed (url : str).              (* "[WARN] Failed to fetch url: e" *)

Inductive event {T : Type} :=
| Get (url : str)
| Print (m : message)
| Sleep (d : T).
Arguments event : clear implicits.

Record world {T : Type} := {
  requests : nat;             (* requests sent so far *)
  trace : list (event T)      (* events so far, oldest first *)
}.
Arguments world : clear implicits.

Definition emit {T} (e : event T) (w : world T) : world T :=
  {| requests := requests w; trace := trace w ++ [e] |}.

(** One request: its event, its number, its answer. *)
Definition http_get `{Network} {T} (url : str) (w : world T)
    : world T * option str :=
  ({| requests := S (requests w); trace := trace w ++ [Get url] |},
   requests_get (requests w) url).

(** [None] is the exception [get_readme_markdown] lets through. *)
Definition get_readme_markdown `{Network} {T} (w : world T)
    : world T * option str :=
  http_get GITHUB_URL w.

(** Any exception becomes a warning and the result [None]. *)
Definition fetch_html `{Network} {T} (url : str) (w : world T)
    : world T * option str :=
  match http_get url w with
  | (w, Some text) => (w, Some text)
  | (w, None) => (emit (Print (WarnFailed url)) w, None)
  end.

Definition placeholder (url : str) : ToolRecord := {|
  product_name := [];
  company := [];
  email := [];
  linkedin_url := [];
  twitter_url := [];
  careers_page := [];
  tool_url := url
|}.

(** The record of a page that was fetched. *)
Definition scrape_page `{Libs} (html url : str) : ToolRecord :=
  let '(product_name, company_name) := guess_product_name_and_company html url in
  let emails := extract_emails html in
  let '(linkedin_url, twitter_url) := extract_social_links html in
  let careers_page := find_careers_page html url in
  {| product_name := product_name;
     company := company_name;
     email := join (lit "; ") emails;
     linkedin_url := linkedin_url;
     twitter_url := twitter_url;
     careers_page := careers_page;
     tool_url := url |}.

(** One of the four calls that read the page raises. *)
Definition scrape_page_raises `{Libs} `{Failures} (html url : str) : bool :=
  guess_product_name_and_company_raises html url
  || extract_emails_raises html
  || extract_social_links_raises html
  || find_careers_page_raises html url.

(** [not html]: the fetch gave [None] or the empty string. *)
Definition falsy_html (html : option str) : bool :=
  match html with
  | Some h => negb (truthy h)
  | None => true
  end.

(** The body of the [for] loop; [n] is [len(tool_urls)].  The first
    branch ends in [continue]: what follows it in the body is not run.
    The result is [None] when the body raises: nothing in it catches the
    exception of a call that reads the page, or of [time.sleep]. *)
Definition loop_body `{Libs} `{Failures} `{Network} {T} `{Clock T}
    (delay : T) (n : nat)
    (st : world T * list ToolRecord) (item : nat * str)
    : world T * option (list ToolRecord) :=
  let '(w, records) := st in
  let '(i, url) := item in
  let w := emit (Print (Processing i n url)) w in
  let '(w, html) := fetch_html url w in
  match html with
  | Some h =>
      if truthy h then
        if scrape_page_raises h url then (w, None)
        else
          let record := scrape_page h url in
          let records := records ++ [record] in
          if sleep_rejects delay then (w, None)
          else
            let w := emit (Sleep delay) w in
            (w, Some records)
      else (w, Some (records ++ [placeholder url]))
  | None => (w, Some (records ++ [placeholder url]))
  end.

(** [enumerate(l, start=1)] *)
Definition enumerate1 {A} (l : list A) : list (nat * A) :=
  zip (seq 1 (length l)) l.

(** [l[:stop]] for an integer [stop]: a negative [stop] counts from the
    end. *)
Definition slice_to {A} (l : list A) (stop : Z) : list A :=
  if (0 <=? stop)%Z then take (Z.to_nat stop) l
  else take (length l - Z.to_nat (- stop)) l.

(** [if limit: tool_urls = tool_urls[:limit]]: [None] and [0] are both
    false. *)
Definition apply_limit {A} (limit : option Z) (tool_urls : list A) : list A :=
  match limit with
  | Some k => if (k =? 0)%Z then tool_urls else slice_to tool_urls k
  | None => tool_urls
  end.

(** One turn of the loop: once the body has raised there is no further
    turn. *)
Definition loop_step `{Libs} `{Failures} `{Network} {T} `{Clock T}
    (delay : T) (n : nat)
    (st : world T * option (list ToolRecord)) (item : nat * str)
    : world T * option (list ToolRecord) :=
  match st with
  | (w, Some records) => loop_body delay n (w, records) item
  | (w, None) => (w, None)
  end.

Definition scrape_loop `{Libs} `{Failures} `{Network} {T} `{Clock T}
    (delay : T) (tool_urls : list str) (w : world T)
    : world T * option (list ToolRecord) :=
  foldl (loop_step delay (length tool_urls)) (w, Some [])
    (enumerate1 tool_urls).

(** The result is [None] when the function raises: the README cannot be
    fetched, or the loop raises. *)
Definition scrape_all_tools `{Libs} `{Failures} `{Network} {T} `{Clock T}
    (limit : option Z) (delay : T) (w : world T)
    : world T * option (list ToolRecord) :=
  match get_readme_markdown w with
  | (w, None) => (w, None)
  | (w, Some md) =>
      let tool_urls := extract_tool_links md in
      let w := emit (Print (Found (length tool_urls))) w in
      let tool_urls := apply_limit limit tool_urls in
      scrape_loop delay tool_urls w
  end.

(** ** save_to_csv and save_to_json *)

Definition comma : char := 44.
Definition dquote : char := 34.
Definition backslash : char := 92.
Definition CR : char := 13.
Definition LF : char := 10.

Definition fieldnames : list str :=
  [lit "product_name"; lit "company"; lit "email"; lit "linkedin_url";
   lit "twitter_url"; lit "careers_page"; lit "tool_url"].

(** [[row.get(key) for key in fieldnames]] *)
Definition row_values (r : ToolRecord) : list str :=
  [product_name r; company r; email r; linkedin_url r; twitter_url r;
   careers_page r; tool_url r].

(** The [csv] writer with its default dialect: fields joined by commas,
    lines ended by CR LF; a field that holds a comma, a quote, CR or LF is
    put in quotes, its quotes doubled. *)
Definition csv_special (c : char) : bool :=
  (c =? comma) || (c =? dquote) || (c =? CR) || (c =? LF).

Definition csv_field (s : str) : str :=
  if existsb csv_special s then
    [dquote] ++ concat ((λ c, if c =? dquote then [dquote; dquote] else [c]) <$> s)
    ++ [dquote]
  else s.

Definition csv_row (fields : list str) : str :=
  join [comma] (csv_field <$> fields) ++ [CR; LF].

(** The file system: the content of each file that exists. *)
Abbreviation files := (gmap str str) (only parsing).

Definition save_to_csv (records : list ToolRecord) (filename : str)
    (fs : files) : files :=
  match records with
  | [] => fs
  | _ =>
      <[filename :=
          csv_row fieldnames ++ concat (csv_row <$> (row_values <$> records))]> fs
  end.

(** [json.dump(records, f, ensure_ascii=False, indent=2)] *)
Definition hex_digit (n : N) : char :=
  if n <? 10 then 48 + n else 87 + n.

Definition json_escape (c : char) : str :=
  if c =? dquote then [backslash; dquote]
  else if c =? backslash then [backslash; backslash]
  else if c =? LF then [backslash; chr "n"]
  else if c =? CR then [backslash; chr "r"]
  else if c =? 9 then [backslash; chr "t"]
  else if c =? 8 then [backslash; chr "b"]
  else if c =? 12 then [backslash; chr "f"]
  else if c <? 32 then
    [backslash; chr "u"; chr "0"; chr "0"; hex_digit (c / 16); hex_digit (c mod 16)]
  else [c].

Definition json_string (s : str) : str :=
  [dquote] ++ concat (json_escape <$> s) ++ [dquote].

Definition newline_indent (level : nat) : str :=
  LF :: repeat (chr " ") (2 * level).

Definition json_record (level : nat) (r : ToolRecord) : str :=
  lit "{" ++ newline_indent (S level)
  ++ join (lit "," ++ newline_indent (S level))
       ((λ kv, json_string kv.1 ++ lit ": " ++ json_string kv.2)
          <$> zip fieldnames (row_values r))
  ++ newline_indent level ++ lit "}".

Definition json_dump (records : list ToolRecord) : str :=
  match records with
  | [] => lit "[]"
  | _ =>
      lit "[" ++ newline_indent 1
      ++ join (lit "," ++ newline_indent 1) (json_record 1 <$> records)
      ++ newline_indent 0 ++ lit "]"
  end.

Definition save_to_json (records : list ToolRecord) (filename : str)
    (fs : files) : files :=
  <[filename := json_dump records]> fs.

(** ** The entry point *)

(** How the program ends: [Raised] when an exception of
    [scrape_all_tools] goes through (traceback, exit status not zero),
    [Completed] when the last line, "Done. Saved tools_data.csv and
    tools_data.json", is printed. *)
Inductive outcome := Raised | Completed.

(** The delay [1.0] of the entry point. *)
Definition one_second : QArith_base.Q := QArith_base.Qmake 1 1.

(** [time.sleep] refuses a negative number of seconds. *)
Global Instance seconds : Clock QArith_base.Q := {|
  sleep_rejects d :=
    match QArith_base.Qcompare d (QArith_base.Qmake 0 1) with
    | Lt => true
    | _ => false
    end
|}.

Definition main `{Libs} `{Failures} `{Network}
    (w : world QArith_base.Q) (fs : files)
    : world QArith_base.Q * files * outcome :=
  match scrape_all_tools None one_second w with
  | (w, None) => (w, fs, Raised)
  | (w, Some records) =>
      let fs := save_to_csv records (lit "tools_data.csv") fs in
      let fs := save_to_json records (lit "tools_data.json") fs in
      (w, fs, Completed)
  end.

(** * Specification vocabulary *)

(** ** Matches *)

(** What an item may match. *)
Definition item_ok (it : item) (seg : str) : Prop :=
  match it with
  | Lit l => seg = l
  | Rep cls lo hi =>
      Forall (λ c, cls c = true) seg ∧ (lo ≤ length seg)%nat ∧
      match hi with Some h => (length seg ≤ h)%nat | None => True end
  end.

(** An [http] or [https] URL as the link pattern reads it: the scheme,
    then one or more characters that are neither white space nor a
    closing parenthesis. *)
Definition is_http_url (u : str) : Prop :=
  ∃ rest, rest ≠ [] ∧
    Forall (λ c, isspace c = false ∧ c ≠ chr ")") rest ∧
    (u = lit "http://" ++ rest ∨ u = lit "https://" ++ rest).

(** [u] occurs in [text] between parentheses. *)
Definition parenthesized_in (u text : str) : Prop :=
  ∃ pre post, text = pre ++ lit "(" ++ u ++ lit ")" ++ post.

(** [e] is the address of the [mailto:] link [h]: what follows the
    scheme, up to the query string if there is one. *)
Definition mailto_address (e h : str) : Prop :=
  ∃ query, h = lit "mailto:" ++ e ++ query ∧ (chr "?" ∉ e) ∧
    (query = [] ∨ ∃ q, query = chr "?" :: q).

(** The shape of a match of the address pattern: user, [@], domain, a
    dot and two letters or more. *)
Definition is_email (e : str) : Prop :=
  ∃ user domain tld,
    e = user ++ lit "@" ++ domain ++ lit "." ++ tld ∧
    user ≠ [] ∧ Forall (λ c, alnum c || one_of "._%+-" c = true) user ∧
    domain ≠ [] ∧ Forall (λ c, alnum c || one_of ".-" c = true) domain ∧
    (2 ≤ length tld)%nat ∧ Forall (λ c, alpha c = true) tld.

Definition occurs_in (e text : str) : Prop :=
  ∃ pre post, text = pre ++ e ++ post.

(** ** Links *)

Definition is_linkedin (h : str) : bool := contains (lit "linkedin.com") h.

Definition is_twitter (h : str) : bool :=
  contains (lit "twitter.com") h || contains (lit "x.com") h.

(** The target of the first link, in document order, whose target
    satisfies [p]; the empty string when there is none. *)
Definition first_href (p : str → bool) (l : list anchor) : str :=
  default [] (head (filter (λ h, p h = true) (href <$> l))).

(** ** The run *)

(** The record of one URL, given the answer to its request. *)
Definition record_for `{Libs} (html : option str) (url : str) : ToolRecord :=
  if falsy_html html then placeholder url
  else scrape_page (default [] html) url.

(** The turn of one URL raises, given the answer to its request: the
    page was fetched and is not empty, and reading it or the pause
    raises. *)
Definition step_raises `{Libs} `{Failures} {T} `{Clock T} (delay : T)
    (url : str) (html : option str) : bool :=
  negb (falsy_html html)
  && (scrape_page_raises (default [] html) url || sleep_rejects delay).

(** The events of one URL, given the answer to its request: the progress
    line, the request, the warning of a failed request, and the pause,
    which is made only for a page that was fetched, is not empty and was
    read without an exception. *)
Definition events_for `{Libs} `{Failures} {T} `{Clock T} (delay : T)
    (n i : nat) (url : str) (html : option str) : list (event T) :=
  [Print (Processing i n url); Get url]
  ++ (if html is None then [Print (WarnFailed url)] else [])
  ++ (if falsy_html html || step_raises delay url html
      then [] else [Sleep delay]).

(** The URLs whose turn comes: all of them, or those up to the first
    whose turn raises; [raises j url] tells whether the turn of [url],
    at place [j], raises. *)
Fixpoint entered (raises : nat → str → bool) (urls : list str) : list str :=
  match urls with
  | [] => []
  | url :: rest =>
      url :: (if raises O url then [] else entered (raises ∘ S) rest)
  end.

(** No turn raises. *)
Fixpoint all_pass (raises : nat → str → bool) (urls : list str) : bool :=
  match urls with
  | [] => true
  | url :: rest => negb (raises O url) && all_pass (raises ∘ S) rest
  end.

(** The turns of a loop that starts after [first] requests: which of
    them raise. *)
Definition raising `{Libs} `{Failures} `{Network} {T} `{Clock T}
    (delay : T) (first : nat) : nat → str → bool :=
  λ j url, step_raises delay url (requests_get (first + j) url).

(** Before the program runs. *)
Definition start {T} : world T := {| requests := 0; trace := [] |}.

(** The first line of the CSV file. *)
Definition header_line : str :=
  lit "product_name,company,email,linkedin_url,twitter_url,careers_page,tool_url"
  ++ [CR; LF].

(** ** Fixtures

    Stand-ins for the libraries and the network, to evaluate the program
    on concrete inputs. *)

Fixpoint take_until (stop : char → bool) (s : str) : str :=
  match s with
  | c :: s' => if stop c then [] else c :: take_until stop s'
  | [] => []
  end.

(** The authority of a URL of the form [scheme://authority/...]; on such
    URLs it is what [urlparse(url).netloc] gives. *)
Definition authority_of (url : str) : str :=
  match partition (lit "://") url with
  | Some (_, after_scheme) =>
      take_until (λ c, bool_decide (c ∈ lit "/?#")) after_scheme
  | None => []
  end.

(** A parser that answers with a given document whatever the text. *)
Definition fixture_libs (soup : Soup) : Libs := {|
  BeautifulSoup := λ _, soup;
  urlparse_netloc := authority_of;
  urljoin := λ base h, h;
  lower := λ s, s
|}.

(** Libraries that never raise. *)
Definition no_failures : Failures := {|
  parser_rejects := λ _, false;
  urlparse_rejects := λ _, false;
  urljoin_rejects := λ _ _, false
|}.

(** A parser that rejects the markup [bad] and nothing else. *)
Definition rejecting (bad : str) : Failures := {|
  parser_rejects := λ html, bool_decide (html = bad);
  urlparse_rejects := λ _, false;
  urljoin_rejects := λ _ _, false
|}.

(** A clock that accepts every delay. *)
Definition patient {T} : Clock T := {| sleep_rejects := λ _, false |}.

(** Whole seconds: [time.sleep] refuses the negative ones. *)
Definition whole_seconds : Clock Z := {| sleep_rejects := λ d, (d <? 0)%Z |}.

(** A network that serves [readme] to the first request and [pages] to
    the others. *)
Definition fixture_network (readme : option str) (pages : str → option str)
    : Network := {|
  requests_get := λ n url,
    match n with
    | O => readme
    | S _ => pages url
    end
|}.

(** Every page is unreachable. *)
Definition dead_pages : str → option str := λ _, None.

(** Every page is reachable and empty. *)
Definition empty_pages : str → option str := λ _, Some [].

Definition empty_soup : Soup :=
  {| title_string := None; metas := []; anchors := [] |}.

Definition acme_soup : Soup :=
  {| title_string := Some (lit "Acme " ++ [em_dash] ++ lit " Acme Corp");
     metas := [ {| meta_property := Some (lit "description");
                   meta_content := Some (lit "Acme, by Acme Corp") |} ];
     anchors := [] |}.

Definition md_two_links : str :=
  lit "See [A](https://a.example/x) and [B](http://b.example) here".

(** The first page is unreachable, the others are served. *)
Definition mixed_pages (page : str) : str → option str :=
  λ url, if bool_decide (url = lit "http://b.example") then None
         else Some page.

(** Markup that [html.parser] rejects. *)
Definition bad_markup : str := lit "<![abc]>".

(** ** Reading a trace *)

(** The URLs requested, in order. *)
Definition requested {T} (tr : list (event T)) : list str :=
  omap (λ e, if e is Get url then Some url else None) tr.

(** The pauses made, in order. *)
Definition pauses {T} (tr : list (event T)) : list T :=
  omap (λ e, if e is Sleep d then Some d else None) tr.

(** The lines printed, in order. *)
Definition printed {T} (tr : list (event T)) : list message :=
  omap (λ e, if e is Print m then Some m else None) tr.

Definition is_progress (m : message) : bool :=
  if m is Processing _ _ _ then true else false.

(** ** Names and links *)

(** No white space at either end. *)
Definition trimmed (s : str) : Prop := lstrip s = s ∧ rstrip s = s.

(** The test of [find_careers_page] on one link. *)
Definition careers_hit `{Libs} (a : anchor) : bool :=
  any_in careers_keywords (lower (href a))
  || any_in careers_keywords (lower (strip (get_text a))).

(** A page with three links, the second and the third to job pages. *)
Definition jobs_soup : Soup :=
  {| title_string := None; metas := [];
     anchors := [ {| href := lit "/about"; get_text := lit "About" |};
                  {| href := lit "/jobs"; get_text := lit "Open roles" |};
                  {| href := lit "/team"; get_text := lit " careers " |} ] |}.

(** A page with four links, none of them to a job page: "career" and
    "job" are not keywords. *)
Definition plain_soup : Soup :=
  {| title_string := Some (lit "Acme"); metas := [];
     anchors := [ {| href := lit "/about"; get_text := lit "About us" |};
                  {| href := lit "/career-advice";
                     get_text := lit "advice for your career" |};
                  {| href := lit "https://x.com/acme";
                     get_text := lit " our job is your success " |};
                  {| href := lit "mailto:join@acme.io";
                     get_text := lit "join" |} ] |}.

(** A network that serves [readme] to the first request and the page
    [page] to the others. *)
Definition one_page (page : str) : str → option str := λ _, Some page.

(** A separator that does not change [name]: it does not occur in it, or
    nothing but white space lies between its occurrences. *)
Definition inert (name sep : str) : Prop :=
  contains sep name = false ∨ parts_of sep name = [].

(** [part] is what the cleanup loop makes of [name] with the function
    [pick]: the part picked around the first separator, in the order of
    their list, that is not inert. *)
Definition cleaned (pick : list str → option str) (name part : str) : Prop :=
  ∃ earlier sep later,
    separators = earlier ++ sep :: later ∧
    Forall (inert name) earlier ∧
    contains sep name = true ∧
    pick (parts_of sep name) = Some part ∧
    part ≠ [] ∧ trimmed part ∧
    contains sep part = false ∧ occurs_in part name.

(** * Properties *)

(** ** Strings *)

Lemma startswith_app p s :
  startswith p s = true → s = p ++ drop (length p) s.
Proof.
  revert s. induction p as [|a p IH]; intros [|b s]; simpl; try done.
  intros [Hab Hps]%andb_prop. apply N.eqb_eq in Hab as ->.
  f_equal. by apply IH.
Qed.

Lemma startswith_prefix p r : startswith p (p ++ r) = true.
Proof.
  induction p as [|a p IH]; simpl; [done|].
  by rewrite N.eqb_refl, IH.
Qed.

Lemma partition_app sep s a b :
  partition sep s = Some (a, b) → s = a ++ sep ++ b.
Proof.
  revert a. induction s as [|c s IH]; intros a; simpl.
  - destruct (startswith sep []) eqn:E; [|done].
    intros [= <- <-]. by apply startswith_app in E.
  - destruct (startswith sep (c :: s)) eqn:E.
    + intros [= <- <-]. by apply startswith_app in E.
    + destruct (partition sep s) as [[a' b']|]; [|done].
      intros [= <- <-]. simpl. f_equal. by apply IH.
Qed.

(** The part before the first occurrence holds no occurrence of a
    one-character separator. *)
Lemma partition_one_before c s a b :
  partition [c] s = Some (a, b) → c ∉ a.
Proof.
  revert a. induction s as [|d s IH]; intros a; simpl; [done|].
  destruct (c =? d) eqn:E; simpl.
  - intros [= <- <-]. apply not_elem_of_nil.
  - destruct (partition [c] s) as [[a' b']|] eqn:P; [|done].
    intros [= <- <-]. apply not_elem_of_cons. split.
    + apply N.eqb_neq in E. done.
    + by apply IH.
Qed.

Lemma partition_one_none c s : partition [c] s = None → c ∉ s.
Proof.
  induction s as [|d s IH]; simpl; [intros; apply not_elem_of_nil|].
  destruct (c =? d) eqn:E; simpl; [done|].
  destruct (partition [c] s) as [[a' b']|] eqn:P; [done|].
  intros _. apply not_elem_of_cons. split.
  - by apply N.eqb_neq in E.
  - by apply IH.
Qed.

Lemma partition_one_found c e q :
  c ∉ e → partition [c] (e ++ c :: q) = Some (e, q).
Proof.
  induction e as [|d e IH]; simpl.
  - intros _. by rewrite N.eqb_refl.
  - intros [Hcd Hce]%not_elem_of_cons.
    destruct (N.eqb_spec c d) as [->|_]; [done|]. simpl.
    by rewrite IH.
Qed.

Lemma partition_one_absent c e : c ∉ e → partition [c] e = None.
Proof.
  induction e as [|d e IH]; simpl; [done|].
  intros [Hcd Hce]%not_elem_of_cons.
  destruct (N.eqb_spec c d) as [->|_]; [done|]. simpl.
  by rewrite IH.
Qed.

Lemma partition_prefix sep r : partition sep (sep ++ r) = Some ([], r).
Proof.
  destruct (sep ++ r) as [|c s] eqn:E; simpl; rewrite <- E;
    by rewrite startswith_prefix, drop_app_length.
Qed.

(** ** The order on strings *)

Global Instance str_le_total : Total str_le.
Proof.
  intros a. unfold str_le.
  induction a as [|x a IH]; intros [|y b]; simpl; auto.
  destruct (N.ltb_spec x y), (N.ltb_spec y x), (N.eqb_spec x y),
    (N.eqb_spec y x); auto; try lia.
Qed.

Global Instance str_le_trans : Transitive str_le.
Proof.
  intros a. unfold str_le.
  induction a as [|x a IH]; intros [|y b] [|z c]; simpl; auto; try done.
  destruct (N.ltb_spec x y), (N.ltb_spec y z), (N.ltb_spec x z),
    (N.eqb_spec x y), (N.eqb_spec y z), (N.eqb_spec x z);
    auto; try lia; try done.
  apply IH.
Qed.

Global Instance str_le_antisymm : AntiSymm (=) str_le.
Proof.
  intros a. unfold str_le.
  induction a as [|x a IH]; intros [|y b]; simpl; auto; try done.
  destruct (N.ltb_spec x y), (N.ltb_spec y x), (N.eqb_spec x y),
    (N.eqb_spec y x); try lia; try done.
  intros. subst. f_equal. by apply IH.
Qed.

Lemma sorted_Sorted xs : Sorted str_le (sorted xs).
Proof. apply (Sorted_merge_sort str_le). Qed.

Lemma sorted_Permutation xs : sorted xs ≡ₚ xs.
Proof. apply (merge_sort_Permutation str_le). Qed.

Lemma sorted_elem_of xs x : x ∈ sorted xs ↔ x ∈ xs.
Proof. by rewrite sorted_Permutation. Qed.

Lemma sorted_NoDup xs : NoDup xs → NoDup (sorted xs).
Proof. by rewrite sorted_Permutation. Qed.

(** A sorted list without duplicates is strictly increasing. *)
Lemma Sorted_NoDup_strict (l : list str) :
  Sorted str_le l → NoDup l → StronglySorted str_lt l.
Proof.
  intros Hs%Sorted_StronglySorted; [|apply _].
  induction Hs as [|x l Hl IH Hx]; intros Hnd; [constructor|].
  apply NoDup_cons in Hnd as [Hnin Hnd].
  constructor; [by apply IH|].
  rewrite Forall_forall. intros y Hy. split.
  - rewrite Forall_forall in Hx. by apply Hx.
  - intros ->. done.
Qed.

(** ** The matcher *)

Lemma rep_sound {R} cls lo hi (k : str → option R) s seg r :
  rep cls lo hi k s = Some (seg, r) →
  ∃ rest, s = seg ++ rest ∧ k rest = Some r ∧ item_ok (Rep cls lo hi) seg.
Proof.
  assert (Hstop : ∀ lo hi s,
    match lo with
    | O => match k s with Some r => Some ([], r) | None => None end
    | S _ => None
    end = Some (seg, r) →
    ∃ rest, s = seg ++ rest ∧ k rest = Some r ∧ item_ok (Rep cls lo hi) seg).
  { intros [|lo'] hi' s' Hk; [|done].
    destruct (k s') eqn:E; [|done]. injection Hk as <- <-.
    exists s'. repeat split; simpl; auto. destruct hi'; [lia|done]. }
  revert lo hi seg r Hstop.
  induction s as [|c s IH]; intros lo hi seg r Hstop; simpl; [by apply Hstop|].
  destruct (cls c) eqn:Hc; simpl; [|by apply Hstop].
  case_bool_decide as Hhi; simpl; [by apply Hstop|].
  destruct (rep cls (pred lo) (pred <$> hi) k s) as [[seg' r']|] eqn:E;
    [|by apply Hstop].
  intros [= <- <-].
  apply IH in E as (rest & -> & Hk & Hcls & Hlo & Hh).
  - exists rest. repeat split; auto; simpl.
    + lia.
    + destruct hi as [[|h]|]; simpl in *; [done|lia|done].
  - intros [|lo'] hi' s' Hk; [|done].
    destruct (k s') eqn:E'; [|done]. injection Hk as <- <-.
    exists s'. repeat split; simpl; auto. destruct hi'; [lia|done].
Qed.

Lemma match_items_sound its s segs r :
  match_items its s = Some (segs, r) →
  s = concat segs ++ r ∧ Forall2 item_ok its segs.
Proof.
  revert s segs r. induction its as [|[l|cls lo hi] its IH]; intros s segs r; simpl.
  - intros [= <- <-]. split; [done|constructor].
  - destruct (startswith l s) eqn:Hl; [|done].
    destruct (match_items its (drop (length l) s)) as [[segs' r']|] eqn:E; [|done].
    intros [= <- <-]. apply IH in E as [Hs Hok].
    split; [|by constructor].
    simpl. rewrite <- app_assoc, <- Hs. by apply startswith_app.
  - destruct (rep cls lo hi (match_items its) s) as [[seg [segs' r']]|] eqn:E; [|done].
    intros [= <- <-]. apply rep_sound in E as (rest & -> & Hk & Hok).
    apply IH in Hk as [-> Hoks]. split; [|by constructor].
    simpl. by rewrite <- app_assoc.
Qed.

(** Every string [findall] returns is the captured text of a match at
    some position of the subject. *)
Lemma findall_go_sound p skip s g :
  g ∈ findall_go p skip s →
  ∃ pre t n, s = pre ++ t ∧ match_at p t = Some (g, n).
Proof.
  revert skip. induction s as [|c s IH]; intros skip; simpl.
  - by intros ?%elem_of_nil.
  - assert (Htl : ∀ k, g ∈ findall_go p k s →
      ∃ pre t n, c :: s = pre ++ t ∧ match_at p t = Some (g, n)).
    { intros k (pre & t & n & -> & Hm)%IH. by exists (c :: pre), t, n. }
    destruct skip as [|k]; [|by apply Htl].
    destruct (match_at p (c :: s)) as [[g' n]|] eqn:E; [|by apply Htl].
    intros [->|Hin]%elem_of_cons; [|by eapply Htl].
    by exists [], (c :: s), n.
Qed.

(** The matcher finds a match whenever there is one. *)
Lemma rep_complete {R} cls lo hi (k : list N → option R) seg rest :
  item_ok (Rep cls lo hi) seg → is_Some (k rest) →
  is_Some (rep cls lo hi k (seg ++ rest)).
Proof.
  revert lo hi. induction seg as [|c seg IH]; intros lo hi (Hcls & Hlo & Hhi) Hk.
  - assert (lo = O) as -> by (cbn in Hlo; lia).
    destruct Hk as [r Hk]. destruct rest as [|c s]; cbn [app rep].
    + by rewrite Hk.
    + destruct (cls c && negb (bool_decide (hi = Some O))); [|by rewrite Hk].
      destruct (rep cls _ _ k s) as [[seg r']|]; [done|by rewrite Hk].
  - apply Forall_cons in Hcls as [Hc Hcls]. cbn [app rep]. rewrite Hc.
    assert (hi ≠ Some O) as Hnz.
    { intros ->. cbn in Hhi. lia. }
    rewrite bool_decide_eq_false_2 by done. cbn [andb negb].
    destruct (IH (pred lo) (pred <$> hi)) as [[seg' r'] ->]; [|done|done].
    split_and!; [done|cbn in *; lia|].
    destruct hi as [h|]; cbn in *; [lia|done].
Qed.

Lemma match_items_complete its segs r :
  Forall2 item_ok its segs → is_Some (match_items its (concat segs ++ r)).
Proof.
  intros Hok. induction Hok as [|[l|cls lo hi] seg its segs Hseg _ IH].
  - done.
  - cbn in Hseg. subst seg. cbn [concat match_items].
    rewrite <- app_assoc, startswith_prefix, drop_app_length.
    by destruct IH as [[segs' r'] ->].
  - cbn [concat match_items]. rewrite <- app_assoc.
    destruct (rep_complete cls lo hi (match_items its) seg
                (concat segs ++ r) Hseg IH) as [[seg' [segs' r']] ->].
    done.
Qed.

(** [sorted] does not depend on the sorting algorithm: it is the one
    sorted arrangement of its argument. *)
Lemma sorted_unique xs l :
  l ≡ₚ xs → Sorted str_le l → l = sorted xs.
Proof.
  intros Hp Hs. apply (Sorted_unique str_le); [done|apply sorted_Sorted|].
  by rewrite Hp, sorted_Permutation.
Qed.

(** A decidable statement about concrete values, by evaluation. *)
Ltac by_computation := apply (bool_decide_unpack _); vm_compute; exact I.

(** ** The scan *)

(** Once a match is passed the scan goes on from its end. *)
Lemma findall_go_skip p (x s : list N) :
  findall_go p (length x) (x ++ s) = findall_go p O s.
Proof.
  induction x as [|c x IH]; [done|].
  cbn [length app findall_go]. exact IH.
Qed.

(** Where no match starts, nothing is found. *)
Lemma findall_go_no_match p (pre s : list N) :
  (∀ x y, pre = x ++ y → y ≠ [] → match_at p (y ++ s) = None) →
  findall_go p O (pre ++ s) = findall_go p O s.
Proof.
  induction pre as [|c pre IH]; intros Hno; [done|].
  cbn [app findall_go].
  pose proof (Hno [] (c :: pre) eq_refl ltac:(done)) as Hc.
  cbn [app] in Hc. rewrite Hc.
  apply IH. intros x y -> Hy. by apply (Hno (c :: x) y).
Qed.

Lemma findall_go_match p c (s g : list N) n :
  match_at p (c :: s) = Some (g, S n) →
  findall_go p O (c :: s) = g :: findall_go p n s.
Proof. intros Hm. cbn [findall_go]. by rewrite Hm. Qed.

(** Two sorted lists without duplicates that hold the same strings are
    equal. *)
Lemma sorted_ext (l1 l2 : list (list N)) :
  Sorted str_le l1 → Sorted str_le l2 → NoDup l1 → NoDup l2 →
  (∀ x, x ∈ l1 ↔ x ∈ l2) → l1 = l2.
Proof.
  intros Hs1 Hs2 Hn1 Hn2 Hin.
  apply (Sorted_unique str_le); [done..|]. by apply NoDup_Permutation.
Qed.

(** ** Occurrences *)

Lemma contains_unfold sub s :
  contains sub s =
  startswith sub s || match s with [] => false | _ :: s' => contains sub s' end.
Proof. by destruct s. Qed.

Lemma contains_occurs sub s : contains sub s = true ↔ occurs_in sub s.
Proof.
  split.
  - induction s as [|c s IH]; rewrite contains_unfold.
    + rewrite orb_false_r. intros Hs%startswith_app.
      exists [], (drop (length sub) []). done.
    + intros [Hs%startswith_app|Hc]%orb_prop.
      * by exists [], (drop (length sub) (c :: s)).
      * destruct (IH Hc) as (pre & post & ->). by exists (c :: pre), post.
  - intros (pre & post & ->). induction pre as [|c pre IH].
    + rewrite contains_unfold. cbn [app]. by rewrite startswith_prefix.
    + rewrite contains_unfold. cbn [app]. rewrite IH. apply orb_true_r.
Qed.

Lemma occurs_in_trans (a b c : list N) :
  occurs_in a b → occurs_in b c → occurs_in a c.
Proof.
  intros (p1 & q1 & ->) (p2 & q2 & ->).
  exists (p2 ++ p1), (q1 ++ q2). by rewrite <- !app_assoc.
Qed.

Lemma contains_nil_nonempty sep : sep ≠ [] → contains sep [] = false.
Proof. by destruct sep. Qed.

Lemma partition_None_contains sep s :
  partition sep s = None ↔ contains sep s = false.
Proof.
  induction s as [|c s IH]; rewrite contains_unfold; simpl.
  - destruct (startswith sep []); by split.
  - destruct (startswith sep (c :: s)); [by split|]. simpl.
    rewrite <- IH. by destruct (partition sep s) as [[a b]|].
Qed.

(** The text before the first occurrence holds no occurrence. *)
Lemma partition_before sep s a b :
  sep ≠ [] → partition sep s = Some (a, b) → contains sep a = false.
Proof.
  intros Hsep. revert a. induction s as [|c s IH]; intros a; simpl.
  - destruct sep; [done|]. done.
  - destruct (startswith sep (c :: s)) eqn:Hs.
    + intros [= <- <-]. by apply contains_nil_nonempty.
    + destruct (partition sep s) as [[a' b']|] eqn:P; [|done].
      intros [= <- <-]. rewrite contains_unfold, (IH a' eq_refl), orb_false_r.
      destruct (startswith sep (c :: a')) eqn:Ha; [|done].
      apply startswith_app in Ha. apply partition_app in P.
      rewrite P, app_comm_cons, Ha, <- app_assoc, startswith_prefix in Hs.
      done.
Qed.

Lemma partition_after_shorter sep s a b :
  sep ≠ [] → partition sep s = Some (a, b) → (length b < length s)%nat.
Proof.
  intros Hsep ->%partition_app. rewrite !length_app.
  destruct sep; [done|]. cbn [length]. lia.
Qed.

(** With as many splits allowed as the text has characters, no part
    holds the separator: [split] cuts at every occurrence. *)
Lemma split_n_no_sep n sep s e :
  sep ≠ [] → (length s ≤ n)%nat → e ∈ split_n n sep s →
  contains sep e = false.
Proof.
  intros Hsep. revert s. induction n as [|n IH]; intros s Hn; cbn [split_n].
  - destruct s; [|cbn in Hn; lia].
    intros ->%list_elem_of_singleton. by apply contains_nil_nonempty.
  - destruct (partition sep s) as [[a b]|] eqn:P.
    + intros [->|He]%elem_of_cons.
      * by eapply partition_before.
      * apply (IH b); [|done].
        pose proof (partition_after_shorter _ _ _ _ Hsep P). lia.
    + intros ->%list_elem_of_singleton. by apply partition_None_contains.
Qed.

Lemma split_n_occurs n sep s e : e ∈ split_n n sep s → occurs_in e s.
Proof.
  revert s. induction n as [|n IH]; intros s; cbn [split_n].
  - intros ->%list_elem_of_singleton. exists [], []. by rewrite app_nil_r.
  - destruct (partition sep s) as [[a b]|] eqn:P.
    + apply partition_app in P as ->. intros [->|He]%elem_of_cons.
      * by exists [], (sep ++ b).
      * destruct (IH _ He) as (pre & post & ->).
        exists (a ++ sep ++ pre), post. by rewrite <- !app_assoc.
    + intros ->%list_elem_of_singleton. exists [], []. by rewrite app_nil_r.
Qed.

Lemma join_cons sep (x y : list N) l :
  join sep (x :: y :: l) = x ++ sep ++ join sep (y :: l).
Proof. reflexivity. Qed.

(** [sep.join(s.split(sep))] is [s]. *)
Lemma join_split_n n sep s : join sep (split_n n sep s) = s.
Proof.
  revert s. induction n as [|n IH]; intros s; cbn [split_n]; [done|].
  destruct (partition sep s) as [[a b]|] eqn:P; [|done].
  apply partition_app in P as ->.
  specialize (IH b). destruct (split_n n sep b) eqn:E.
  - by destruct n; cbn in E; [|destruct (partition sep b) as [[??]|]].
  - by rewrite join_cons, IH.
Qed.

(** ** White space at the ends *)

Lemma lstrip_suffix s : ∃ x, s = x ++ lstrip s.
Proof.
  induction s as [|c s [x IH]]; [by exists []|]. simpl.
  destruct (isspace c); [|by exists []].
  exists (c :: x). simpl. by f_equal.
Qed.

Lemma rstrip_prefix s : ∃ x, s = rstrip s ++ x.
Proof.
  unfold rstrip. destruct (lstrip_suffix (rev s)) as [x Hx].
  exists (rev x). rewrite <- rev_app_distr, <- Hx. by rewrite rev_involutive.
Qed.

Lemma strip_occurs s : occurs_in (strip s) s.
Proof.
  unfold strip. destruct (lstrip_suffix s) as [x Hx].
  destruct (rstrip_prefix (lstrip s)) as [y Hy].
  exists x, y. by rewrite <- Hy.
Qed.

Lemma lstrip_idem s : lstrip (lstrip s) = lstrip s.
Proof.
  induction s as [|c s IH]; [done|]. simpl.
  destruct (isspace c) eqn:E; [done|]. simpl. by rewrite E.
Qed.

Lemma rstrip_idem s : rstrip (rstrip s) = rstrip s.
Proof. unfold rstrip. by rewrite rev_involutive, lstrip_idem. Qed.

Lemma lstrip_cases s :
  lstrip s = [] ∨ ∃ c t, lstrip s = c :: t ∧ isspace c = false.
Proof.
  induction s as [|c s IH]; [by left|]. simpl.
  destruct (isspace c) eqn:E; [done|]. right. by exists c, s.
Qed.

Lemma lstrip_snoc x c : isspace c = false → ∃ y, lstrip (x ++ [c]) = y ++ [c].
Proof.
  intros Hc. induction x as [|d x [y IH]]; simpl.
  - rewrite Hc. by exists [].
  - destruct (isspace d); [by exists y|]. by exists (d :: x).
Qed.

Lemma strip_trimmed s : trimmed (strip s).
Proof.
  unfold trimmed, strip. split; [|apply rstrip_idem].
  destruct (lstrip_cases s) as [->|(c & t & -> & Hc)]; [done|].
  unfold rstrip. cbn [rev]. destruct (lstrip_snoc (rev t) c Hc) as [y ->].
  rewrite rev_app_distr. simpl. by rewrite Hc.
Qed.

(** ** Splitting what was joined *)

Lemma partition_cons_ne c d sep (s : list N) :
  c ≠ d →
  partition (c :: sep) (d :: s) =
  match partition (c :: sep) s with
  | Some (a, b) => Some (d :: a, b)
  | None => None
  end.
Proof.
  intros Hcd. cbn [partition startswith].
  by destruct (N.eqb_spec c d) as [->|_].
Qed.

Lemma partition_sep_found c sep (e rest : list N) :
  c ∉ e → partition (c :: sep) (e ++ (c :: sep) ++ rest) = Some (e, rest).
Proof.
  induction e as [|d e IH].
  - intros _. exact (partition_prefix (c :: sep) rest).
  - intros [Hcd Hce]%not_elem_of_cons.
    rewrite <- app_comm_cons, partition_cons_ne by done. by rewrite IH.
Qed.

Lemma partition_sep_absent c sep (e : list N) :
  c ∉ e → partition (c :: sep) e = None.
Proof.
  induction e as [|d e IH]; [done|].
  intros [Hcd Hce]%not_elem_of_cons.
  rewrite partition_cons_ne by done. by rewrite IH.
Qed.

Lemma split_n_join n c sep (l : list (list N)) :
  l ≠ [] → Forall (λ e, c ∉ e) l → (length l ≤ S n)%nat →
  split_n n (c :: sep) (join (c :: sep) l) = l.
Proof.
  intros Hne Hall. revert n. induction Hall as [|x l Hx Hall IH]; [done|].
  intros n Hn. destruct l as [|y l].
  - cbn [join]. destruct n; [done|]. cbn [split_n].
    by rewrite partition_sep_absent.
  - destruct n as [|n]; [cbn in Hn; lia|].
    rewrite join_cons. cbn [split_n]. rewrite partition_sep_found by done.
    f_equal. apply IH; [done|]. cbn in *. lia.
Qed.

Lemma join_length sep (l : list (list N)) :
  sep ≠ [] → (length l ≤ S (length (join sep l)))%nat.
Proof.
  intros Hsep. induction l as [|x l IH]; [cbn; lia|].
  destruct l as [|y l]; [cbn; lia|].
  rewrite join_cons, !length_app. destruct sep; [done|].
  cbn [length] in *. lia.
Qed.

(** [sep.join(l).split(sep)] is [l], for a list that is not empty and
    whose strings do not hold the first character of [sep]. *)
Lemma split_join c sep (l : list (list N)) :
  l ≠ [] → Forall (λ e, c ∉ e) l →
  split (c :: sep) (join (c :: sep) l) = l.
Proof.
  intros Hne Hall. apply split_n_join; [done..|]. by apply join_length.
Qed.

(** ** extract_tool_links *)

Lemma url_pattern_match t g n :
  match_at url_pattern t = Some (g, n) →
  is_http_url g ∧ ∃ post, t = lit "(" ++ g ++ lit ")" ++ post.
Proof.
  unfold match_at.
  destruct (match_items _ t) as [[segs r]|] eqn:E; [|done].
  intros [= <- _]. apply match_items_sound in E as [-> Hok].
  apply Forall2_cons_inv_l in Hok as (l0 & segs0 & -> & Hok & ->).
  apply Forall2_cons_inv_l in Hok as (l1 & segs1 & -> & Hok & ->).
  apply Forall2_cons_inv_l in Hok as (opt_s & segs2 & (Hs & _ & Hlen) & Hok & ->).
  apply Forall2_cons_inv_l in Hok as (l3 & segs3 & -> & Hok & ->).
  apply Forall2_cons_inv_l in Hok as (rest & segs4 & (Hu & Hu1 & _) & Hok & ->).
  apply Forall2_cons_inv_l in Hok as (l5 & segs5 & -> & Hok & ->).
  apply Forall2_nil_inv_l in Hok as ->.
  change (concat (take _ (drop _ _)))
    with (lit "http" ++ opt_s ++ lit "://" ++ rest ++ []).
  rewrite app_nil_r.
  split.
  - exists rest. split; [by destruct rest; [cbn in Hu1; lia|]|]. split.
    + eapply Forall_impl; [exact Hu|]. intros c Hc. unfold url_char in Hc.
      apply negb_true_iff, orb_false_iff in Hc as [Hsp Hp].
      split; [done|]. by apply N.eqb_neq in Hp.
    + destruct opt_s as [|c [|]]; [by left| |cbn in Hlen; lia].
      apply Forall_cons in Hs as [Hc%N.eqb_eq _]. subst c. by right.
  - exists r.
    change (concat _) with
      (lit "(" ++ lit "http" ++ opt_s ++ lit "://" ++ rest ++ lit ")" ++ []).
    rewrite app_nil_r, <- !app_assoc. done.
Qed.

Lemma findall_url_pattern md u :
  u ∈ findall url_pattern md → is_http_url u ∧ parenthesized_in u md.
Proof.
  intros (pre & t & n & -> & Hm)%findall_go_sound.
  apply url_pattern_match in Hm as [Hu [post ->]].
  split; [done|]. by exists pre, post.
Qed.

Lemma extract_tool_links_elem_of md u :
  u ∈ extract_tool_links md ↔
  u ∈ findall url_pattern md ∧ contains REPO u = false.
Proof.
  unfold extract_tool_links. rewrite sorted_elem_of, list_elem_of_filter.
  rewrite elem_of_elements, elem_of_list_to_set. tauto.
Qed.

Lemma extract_tool_links_NoDup md : NoDup (extract_tool_links md).
Proof.
  unfold extract_tool_links.
  apply sorted_NoDup, NoDup_filter, NoDup_elements.
Qed.

(** The result does not depend on the order in which the set of URLs is
    iterated. *)
Lemma extract_tool_links_any_order md (urls : list (list N)) :
  NoDup urls → (∀ u, u ∈ urls ↔ u ∈ findall url_pattern md) →
  sorted (filter (λ url, contains REPO url = false) urls)
  = extract_tool_links md.
Proof.
  intros Hnd Hin. apply sorted_unique; [|apply sorted_Sorted].
  rewrite sorted_Permutation. apply NoDup_Permutation.
  - by apply NoDup_filter.
  - apply NoDup_filter, NoDup_elements.
  - intros u. rewrite !list_elem_of_filter, Hin.
    by rewrite elem_of_elements, elem_of_list_to_set.
Qed.

Lemma first_occurrence c (a a' b b' : list N) :
  c ∉ a → c ∉ a' → a ++ c :: b = a' ++ c :: b' → a = a'.
Proof.
  intros Ha Ha' Heq.
  pose proof (partition_one_found c a b Ha) as P.
  rewrite Heq, (partition_one_found c a' b' Ha') in P. by injection P.
Qed.

Lemma is_http_url_no_paren u : is_http_url u → chr ")" ∉ u.
Proof.
  intros (rest & _ & Hrest & Hu) Hin.
  assert (chr ")" ∈ rest) as Hin'.
  { destruct Hu as [->| ->]; apply elem_of_app in Hin as [Hin|Hin]; try done;
      vm_compute in Hin; repeat (apply elem_of_cons in Hin as [[=]|Hin]);
      by apply elem_of_nil in Hin. }
  rewrite Forall_forall in Hrest. by destruct (Hrest _ Hin').
Qed.

(** A URL between parentheses is matched where it stands, whole. *)
Lemma url_pattern_finds u post :
  is_http_url u →
  ∃ n, match_at url_pattern (lit "(" ++ u ++ lit ")" ++ post) = Some (u, n).
Proof.
  intros Hu. pose proof Hu as (rest & Hne & Hrest & Hshape).
  assert (is_Some (match_at url_pattern (lit "(" ++ u ++ lit ")" ++ post)))
    as [[g n] Hm].
  { unfold match_at.
    assert (∃ opt_s, u = lit "http" ++ opt_s ++ lit "://" ++ rest ∧
      item_ok (Rep (N.eqb (chr "s")) 0 (Some 1%nat)) opt_s) as (opt_s & -> & Hs).
    { destruct Hshape as [-> | ->]; [exists []|exists (lit "s")];
        (split; [done|]); cbn; split_and!; auto; lia. }
    destruct (match_items_complete
      (before url_pattern ++ captured url_pattern ++ after url_pattern)
      [lit "("; lit "http"; opt_s; lit "://"; rest; lit ")"] post) as [[segs r] E].
    { cbn [before captured after url_pattern app].
      constructor; [done|]. constructor; [done|].
      constructor; [exact Hs|]. constructor; [done|].
      constructor; [|constructor; [done|constructor]].
      split_and!; [|destruct rest; [done|cbn; lia]|done].
      eapply Forall_impl; [exact Hrest|]. intros c [Hsp Hp].
      unfold url_char. rewrite Hsp. by apply N.eqb_neq in Hp as ->. }
    cbn [concat] in E. rewrite app_nil_r, <- !app_assoc in E.
    rewrite <- !app_assoc. by rewrite E. }
  exists n. pose proof Hm as [Hg [post' Heq]]%url_pattern_match.
  apply app_inv_head in Heq.
  apply first_occurrence in Heq; [by subst|by apply is_http_url_no_paren..].
Qed.

(** C2: for every markdown text, the list [extract_tool_links] returns
    holds no URL that contains the path of the source repository, holds
    no entry twice, is sorted lexicographically (strictly increasing, as
    it has no duplicates), and each of its entries is an http or https
    URL that occurs between parentheses in the text. *)
Theorem extract_tool_links_spec (markdown_text : str) :
  let links := extract_tool_links markdown_text in
  Forall (λ u, contains REPO u = false) links ∧
  NoDup links ∧
  Sorted str_le links ∧
  StronglySorted str_lt links ∧
  Forall (λ u, is_http_url u ∧ parenthesized_in u markdown_text) links.
Proof.
  simpl. split_and!.
  - apply Forall_forall. by intros u [_ ?]%extract_tool_links_elem_of.
  - apply extract_tool_links_NoDup.
  - apply sorted_Sorted.
  - apply Sorted_NoDup_strict;
      [apply sorted_Sorted|apply extract_tool_links_NoDup].
  - apply Forall_forall. intros u [Hu _]%extract_tool_links_elem_of.
    by apply findall_url_pattern.
Qed.

(** ** guess_product_name_and_company *)

Lemma find_meta_absent soup p :
  Forall (λ m, meta_property m ≠ Some p) (metas soup) →
  find_meta soup p = None.
Proof.
  intros Hall. unfold find_meta.
  apply fmap_None, list_find_None. exact Hall.
Qed.

(** C3: for a document whose title is "Acme — Acme Corp" (the separator
    is an em dash) and that has neither an [og:title] nor an
    [og:site_name] meta tag, the product name is "Acme", the first part
    around the separator, and the company name is "Acme Corp", the last
    part of the same title. *)
Theorem guess_acme_title `{Libs} (html url : str) :
  title_string (BeautifulSoup html)
    = Some (lit "Acme " ++ [em_dash] ++ lit " Acme Corp") →
  Forall (λ m, meta_property m ≠ Some (lit "og:title")
               ∧ meta_property m ≠ Some (lit "og:site_name"))
    (metas (BeautifulSoup html)) →
  guess_product_name_and_company html url = (lit "Acme", lit "Acme Corp").
Proof.
  intros Htitle Hmetas. unfold guess_product_name_and_company.
  rewrite !find_meta_absent, Htitle.
  - vm_compute. reflexivity.
  - eapply Forall_impl; [exact Hmetas|]. by intros m [_ ?].
  - eapply Forall_impl; [exact Hmetas|]. by intros m [? _].
Qed.

Lemma guess_acme_title_witness :
  @guess_product_name_and_company (fixture_libs acme_soup)
    (lit "<title>Acme</title>") (lit "https://acme.example/")
  = (lit "Acme", lit "Acme Corp").
Proof.
  apply (@guess_acme_title (fixture_libs acme_soup)).
  - reflexivity.
  - repeat constructor; discriminate.
Defined.

(** What the fallback computes: when the document has no title string
    and no [og:site_name] tag, the company name is the network location
    of the URL with every occurrence of "www." deleted. *)
Lemma company_fallback `{Libs} (html url : str) :
  title_string (BeautifulSoup html) = None →
  Forall (λ m, meta_property m ≠ Some (lit "og:site_name"))
    (metas (BeautifulSoup html)) →
  (guess_product_name_and_company html url).2
  = replace (lit "www.") [] (urlparse_netloc url).
Proof.
  intros Htitle Hmetas. unfold guess_product_name_and_company.
  rewrite (find_meta_absent _ (lit "og:site_name")), Htitle by done.
  reflexivity.
Qed.

(** C5 fails on the code: for the URL https://awww.example.com/ of a page
    without title, the host is awww.example.com, where "www." is not a
    prefix; the company name returned is aexample.com, the inner "www."
    deleted.  The same holds for www.awww.example.com, which becomes
    aexample.com and not awww.example.com. *)
Theorem company_fallback_deletes_inner_www :
  (@guess_product_name_and_company (fixture_libs empty_soup)
     [] (lit "https://awww.example.com/")).2 = lit "aexample.com"
  ∧ (@guess_product_name_and_company (fixture_libs empty_soup)
     [] (lit "https://www.awww.example.com/")).2 = lit "aexample.com"
  ∧ (@guess_product_name_and_company (fixture_libs empty_soup)
     [] (lit "https://www.example.com/")).2 = lit "example.com".
Proof. vm_compute. done. Qed.

(** ** extract_emails *)

Lemma split_n_1 sep s :
  split_n 1 sep s =
  match partition sep s with Some (a, b) => [a; b] | None => [s] end.
Proof. reflexivity. Qed.

Lemma mailto_target_prefix r :
  mailto_target (lit "mailto:" ++ r)
  = default [] (head (split_n 1 [chr "?"] r)).
Proof.
  unfold mailto_target. rewrite (split_n_1 (lit "mailto:")).
  by rewrite partition_prefix.
Qed.

Lemma mailto_target_address h :
  startswith (lit "mailto:") h = true → mailto_address (mailto_target h) h.
Proof.
  intros Hh%startswith_app. revert Hh.
  generalize (drop (length (lit "mailto:")) h). intros r ->.
  unfold mailto_address. rewrite mailto_target_prefix, split_n_1.
  destruct (partition [chr "?"] r) as [[e q]|] eqn:P.
  - exists (chr "?" :: q). split_and!.
    + f_equal. by apply partition_app in P.
    + by apply partition_one_before in P.
    + right. by exists q.
  - exists []. split_and!.
    + by rewrite app_nil_r.
    + by apply partition_one_none in P.
    + by left.
Qed.

Lemma mailto_address_target e h :
  mailto_address e h →
  startswith (lit "mailto:") h = true ∧ mailto_target h = e.
Proof.
  intros (query & -> & He & Hq). split; [apply startswith_prefix|].
  rewrite mailto_target_prefix, split_n_1. destruct Hq as [->|[q ->]].
  - by rewrite app_nil_r, partition_one_absent.
  - by rewrite partition_one_found.
Qed.

Lemma mailto_targets_elem_of soup e :
  e ∈ mailto_targets soup ↔ ∃ a, a ∈ anchors soup ∧ mailto_address e (href a).
Proof.
  unfold mailto_targets. rewrite list_elem_of_fmap. split.
  - intros (h & -> & [Hh (a & -> & Ha)%list_elem_of_fmap]%list_elem_of_filter).
    exists a. split; [done|]. by apply mailto_target_address.
  - intros (a & Ha & [Hs Ht]%mailto_address_target).
    exists (href a). split; [done|].
    apply list_elem_of_filter. split; [done|].
    apply list_elem_of_fmap. by exists a.
Qed.

Lemma email_pattern_match t g n :
  match_at plain_email_pattern t = Some (g, n) →
  is_email g ∧ ∃ post, t = g ++ post.
Proof.
  unfold match_at.
  destruct (match_items _ t) as [[segs r]|] eqn:E; [|done].
  intros [= <- _]. apply match_items_sound in E as [-> Hok].
  apply Forall2_cons_inv_l in Hok as (user & segs0 & (Hu & Hu1 & _) & Hok & ->).
  apply Forall2_cons_inv_l in Hok as (l1 & segs1 & -> & Hok & ->).
  apply Forall2_cons_inv_l in Hok as (domain & segs2 & (Hd & Hd1 & _) & Hok & ->).
  apply Forall2_cons_inv_l in Hok as (l3 & segs3 & -> & Hok & ->).
  apply Forall2_cons_inv_l in Hok as (tld & segs4 & (Ht & Ht2 & _) & Hok & ->).
  apply Forall2_nil_inv_l in Hok as ->.
  change (concat (take _ (drop _ _)))
    with (user ++ lit "@" ++ domain ++ lit "." ++ tld ++ []).
  rewrite app_nil_r. split.
  - exists user, domain, tld. split_and!; try done.
    + destruct user; [cbn in Hu1; lia|done].
    + destruct domain; [cbn in Hd1; lia|done].
  - exists r.
    change (concat _) with (user ++ lit "@" ++ domain ++ lit "." ++ tld ++ []).
    by rewrite app_nil_r, <- !app_assoc.
Qed.

Lemma findall_email_pattern html e :
  e ∈ findall plain_email_pattern html → is_email e ∧ occurs_in e html.
Proof.
  intros (pre & t & n & -> & Hm)%findall_go_sound.
  apply email_pattern_match in Hm as [He [post ->]].
  split; [done|]. by exists pre, post.
Qed.



(** ** extract_social_links *)

Lemma is_linkedin_truthy h : is_linkedin h = true → truthy h = true.
Proof. by destruct h. Qed.

Lemma is_twitter_truthy h : is_twitter h = true → truthy h = true.
Proof. by destruct h. Qed.

Lemma first_href_cons p a l :
  first_href p (a :: l) = if p (href a) then href a else first_href p l.
Proof.
  unfold first_href. rewrite fmap_cons, filter_cons.
  destruct (p (href a)) eqn:E; by case_decide.
Qed.

(** The loop keeps a link once it has one, and otherwise ends with the
    first matching link of the rest. *)
Lemma social_loop l acc :
  foldl social_step acc l =
  (if truthy acc.1 then acc.1 else first_href is_linkedin l,
   if truthy acc.2 then acc.2 else first_href is_twitter l).
Proof.
  revert acc. induction l as [|a l IH]; intros [li tw].
  - by destruct li, tw.
  - cbn [foldl]. rewrite IH, !first_href_cons. unfold social_step.
    fold (is_linkedin (href a)). fold (is_twitter (href a)).
    cbn [fst snd].
    destruct (is_linkedin (href a)) eqn:Eli, (is_twitter (href a)) eqn:Etw,
      (truthy li) eqn:Tli, (truthy tw) eqn:Ttw; cbn [andb negb];
      rewrite ?Tli, ?Ttw, ?(is_linkedin_truthy _ Eli), ?(is_twitter_truthy _ Etw);
      reflexivity.
Qed.

Lemma first_href_first p pre a post :
  Forall (λ b, p (href b) = false) pre → p (href a) = true →
  first_href p (pre ++ a :: post) = href a.
Proof.
  intros Hpre Ha. induction Hpre as [|b pre Hb _ IH]; simpl.
  - by rewrite first_href_cons, Ha.
  - by rewrite first_href_cons, Hb.
Qed.

Lemma first_href_none p l :
  Forall (λ b, p (href b) = false) l → first_href p l = [].
Proof.
  intros Hl. induction Hl as [|b l Hb _ IH]; [done|].
  by rewrite first_href_cons, Hb.
Qed.

(** C8: for every HTML text, [extract_social_links] returns the target
    of the first link, in document order, whose target contains
    "linkedin.com", and the target of the first link whose target
    contains "twitter.com" or "x.com"; each is the empty string when no
    link matches.  ([first_href_first] and [first_href_none] spell out
    that links after the first match do not count.) *)
Theorem extract_social_links_first `{Libs} (html : str) :
  extract_social_links html =
  (first_href is_linkedin (anchors (BeautifulSoup html)),
   first_href is_twitter (anchors (BeautifulSoup html))).
Proof. unfold extract_social_links. by rewrite social_loop. Qed.

(** ** save_to_csv and save_to_json *)

(** C9: with an empty list of records, [save_to_csv] leaves the file
    system as it is and [save_to_json] writes the text [[]]; with a list
    that is not empty, [save_to_csv] writes the line of the seven field
    names and then one line per record, in order. *)
Theorem save_empty_and_csv_rows (filename : str) (fs : gmap (list N) (list N)) :
  save_to_csv [] filename fs = fs ∧
  save_to_json [] filename fs = <[filename := lit "[]"]> fs ∧
  ∀ r records,
    save_to_csv (r :: records) filename fs =
    <[filename :=
        header_line ++ concat (csv_row <$> (row_values <$> (r :: records)))]> fs.
Proof. split_and!; [done|done|]. intros r records. reflexivity. Qed.

(** ** scrape_all_tools *)

(** [company_from_page] is the company name of
    [guess_product_name_and_company] before its fallback, and
    [urlparse] is asked exactly when it is empty. *)
Lemma company_from_page_spec `{Libs} html url :
  (guess_product_name_and_company html url).2 =
  if truthy (company_from_page html) then company_from_page html
  else replace (lit "www.") [] (urlparse_netloc url).
Proof. reflexivity. Qed.

Lemma loop_body_eq `{Libs} `{Failures} `{Network} {T} `{Clock T}
    (delay : T) n w recs i url :
  loop_body delay n (w, recs) (i, url) =
  ({| requests := S (requests w);
      trace := trace w
        ++ events_for delay n i url (requests_get (requests w) url) |},
   if step_raises delay url (requests_get (requests w) url) then None
   else Some (recs ++ [record_for (requests_get (requests w) url) url])).
Proof.
  unfold loop_body, fetch_html, http_get, emit, events_for, record_for,
    step_raises.
  cbn [requests trace].
  destruct (requests_get (requests w) url) as [h|];
    cbn [falsy_html negb default id andb orb].
  - destruct (truthy h); cbn [negb andb orb].
    + destruct (scrape_page_raises h url); cbn [orb];
        [|destruct (sleep_rejects delay)];
        cbn [requests trace app]; rewrite <- ?app_assoc; reflexivity.
    + cbn [requests trace app]. by rewrite <- ?app_assoc.
  - cbn [requests trace app]. by rewrite <- ?app_assoc.
Qed.

(** Once the body has raised the loop does nothing more. *)
Lemma loop_stopped `{Libs} `{Failures} `{Network} {T} `{Clock T}
    (delay : T) n (w : world T) (items : list (nat * list N)) :
  foldl (loop_step delay n) (w, None) items = (w, None).
Proof. induction items as [|item items IH]; [done|]. exact IH. Qed.

Lemma scrape_loop_gen `{Libs} `{Failures} `{Network} {T} `{Clock T}
    (delay : T) n urls k w recs (resp : nat → list N → option (list N)) :
  (∀ j url, requests_get (requests w + j) url = resp j url) →
  foldl (loop_step delay n) (w, Some recs) (zip (seq k (length urls)) urls) =
  ({| requests :=
        requests w
        + length (entered (λ j url, step_raises delay url (resp j url)) urls);
      trace := trace w ++ concat (imap (λ j url,
        events_for delay n (k + j) url (resp j url))
        (entered (λ j url, step_raises delay url (resp j url)) urls)) |},
   if all_pass (λ j url, step_raises delay url (resp j url)) urls
   then Some (recs ++ imap (λ j url, record_for (resp j url) url) urls)
   else None).
Proof.
  revert k w recs resp.
  induction urls as [|url urls IH]; intros k w recs resp Hresp.
  - cbn. rewrite !app_nil_r, Nat.add_0_r. by destruct w.
  - cbn [length seq zip zip_with foldl loop_step entered all_pass imap].
    rewrite loop_body_eq. pose proof (Hresp O url) as Hfirst.
    rewrite Nat.add_0_r in Hfirst. rewrite Hfirst.
    destruct (step_raises delay url (resp O url)) eqn:Hraise.
    + rewrite loop_stopped. cbn [negb andb length concat imap app].
      rewrite app_nil_r, Nat.add_0_r. f_equal. f_equal. lia.
    + rewrite (IH (S k) _ _ (resp ∘ S)).
      * cbn [requests trace negb andb length concat imap].
        rewrite Nat.add_0_r, <- !app_assoc. unfold compose. cbv beta.
        f_equal. f_equal; [lia|]. do 3 f_equal.
        apply imap_ext. intros j u _. cbv beta. by rewrite Nat.add_succ_r.
      * intros j u. cbn [requests]. unfold compose.
        rewrite <- (Hresp (S j) u). f_equal. lia.
Qed.

Lemma scrape_loop_eq `{Libs} `{Failures} `{Network} {T} `{Clock T}
    (delay : T) urls w :
  scrape_loop delay urls w =
  ({| requests :=
        requests w + length (entered (raising delay (requests w)) urls);
      trace := trace w ++ concat (imap (λ j url,
        events_for delay (length urls) (S j) url
          (requests_get (requests w + j) url))
        (entered (raising delay (requests w)) urls)) |},
   if all_pass (raising delay (requests w)) urls
   then Some (imap (λ j url,
          record_for (requests_get (requests w + j) url) url) urls)
   else None).
Proof.
  unfold scrape_loop, enumerate1.
  by rewrite (scrape_loop_gen delay _ urls 1 w []
                (λ j url, requests_get (requests w + j) url)).
Qed.

(** The URLs whose turn comes are the first of the list. *)
Lemma entered_prefix raises urls : entered raises urls `prefix_of` urls.
Proof.
  revert raises. induction urls as [|url urls IH]; intros raises; [done|].
  cbn [entered]. destruct (raises O url).
  - by exists urls.
  - by apply prefix_cons.
Qed.

Lemma entered_all raises urls :
  all_pass raises urls = true → entered raises urls = urls.
Proof.
  revert raises. induction urls as [|url urls IH]; intros raises; [done|].
  cbn [entered all_pass]. destruct (raises O url); [done|].
  cbn [negb andb]. intros Hrest. f_equal. by apply IH.
Qed.

(** Some turn raises exactly when not all pass. *)
Lemma all_pass_false raises urls :
  all_pass raises urls = false ↔
  ∃ j url, urls !! j = Some url ∧ raises j url = true.
Proof.
  revert raises. induction urls as [|url urls IH]; intros raises.
  - split; [done|]. by intros (j & u & Hj & _).
  - cbn [all_pass]. destruct (raises O url) eqn:E; cbn [negb andb].
    + split; [|done]. intros _. by exists O, url.
    + rewrite IH. split.
      * intros (j & u & Hj & Hr). by exists (S j), u.
      * intros ([|j] & u & Hj & Hr); [|by exists j, u].
        cbn in Hj. injection Hj as <-. congruence.
Qed.

(** The run, once the README is fetched: it returns the records of all
    URLs when no turn raises, and raises otherwise. *)
Lemma scrape_all_tools_eq `{Libs} `{Failures} `{Network} {T} `{Clock T}
    limit (delay : T) w md :
  requests_get (requests w) GITHUB_URL = Some md →
  (scrape_all_tools limit delay w).2 =
  if all_pass (raising delay (S (requests w)))
       (apply_limit limit (extract_tool_links md))
  then Some (imap (λ j url,
          record_for (requests_get (S (requests w) + j) url) url)
        (apply_limit limit (extract_tool_links md)))
  else None.
Proof.
  intros Hmd. unfold scrape_all_tools, get_readme_markdown, http_get.
  rewrite Hmd, scrape_loop_eq. reflexivity.
Qed.

Lemma scrape_all_tools_loop `{Libs} `{Failures} `{Network} {T} `{Clock T}
    limit (delay : T) w md :
  requests_get (requests w) GITHUB_URL = Some md →
  scrape_all_tools limit delay w =
  scrape_loop delay (apply_limit limit (extract_tool_links md))
    {| requests := S (requests w);
       trace := trace w
         ++ [Get GITHUB_URL; Print (Found (length (extract_tool_links md)))] |}.
Proof.
  intros Hmd. unfold scrape_all_tools, get_readme_markdown, http_get, emit.
  rewrite Hmd. cbn [requests trace]. by rewrite <- app_assoc.
Qed.

Lemma tool_url_record_for `{Libs} html url :
  tool_url (record_for html url) = url.
Proof.
  unfold record_for, scrape_page. destruct (falsy_html html); [done|].
  destruct (guess_product_name_and_company _ _).
  by destruct (extract_social_links _).
Qed.

Lemma tool_urls_imap `{Libs} (f : nat → list N → option (list N)) urls :
  tool_url <$> imap (λ j url, record_for (f j url) url) urls = urls.
Proof.
  revert f. induction urls as [|u urls IH]; intros f; [done|].
  cbn [imap fmap list_fmap]. rewrite tool_url_record_for. f_equal.
  apply (IH (f ∘ S)).
Qed.

(** What one turn emits, and when it ends with the pause. *)
Lemma events_for_sleep `{Libs} `{Failures} {T} `{Clock T} (delay : T)
    n i url html :
  (falsy_html html = false ∧ step_raises delay url html = false ↔
     last (events_for delay n i url html) = Some (Sleep delay))
  ∧ (falsy_html html = true ∨ step_raises delay url html = true ↔
       Sleep delay ∉ events_for delay n i url html).
Proof.
  assert (Hnot : ∀ l : list (event T),
    Forall (λ e, e ≠ Sleep delay) l → Sleep delay ∉ l).
  { intros l Hl Hin. rewrite Forall_forall in Hl. by apply (Hl _ Hin). }
  unfold events_for.
  destruct html as [h|], (falsy_html _) eqn:Ef,
    (step_raises delay url _) eqn:Er; cbn [orb app last]; split; split;
    try done; try tauto; try (intros _; apply Hnot; by repeat constructor);
    try (intros [??]; done); try (intros [?|?]; done).
  intros Hn. exfalso. apply Hn. do 2 right. left.
Qed.

(** C1, as the code has it: the events of the loop are, URL after URL
    for the URLs whose turn comes, the progress line, the request, the
    warning of a failed request and then the pause; the pause of [delay]
    ends the turn exactly for the URLs whose page was fetched, is not
    empty and was read without an exception.  After a failed request, or
    an empty page, the placeholder is appended and the loop goes on to
    the next URL without a pause. *)
Theorem sleep_only_after_fetched_page `{Libs} `{Failures} `{Network} {T}
    `{Clock T} (delay : T) (tool_urls : list (list N)) (w : world T) :
  trace (scrape_loop delay tool_urls w).1 =
    trace w ++ concat (imap (λ j url,
      events_for delay (length tool_urls) (S j) url
        (requests_get (requests w + j) url))
      (entered (raising delay (requests w)) tool_urls))
  ∧ (∀ n i url html,
      (falsy_html html = false ∧ step_raises delay url html = false ↔
         last (events_for delay n i url html) = Some (Sleep delay))
      ∧ (falsy_html html = true ∨ step_raises delay url html = true ↔
           Sleep delay ∉ events_for delay n i url html))
  ∧ (∀ n records i url,
      falsy_html (requests_get (requests w) url) = true →
      (loop_body delay n (w, records) (i, url)).2
      = Some (records ++ [placeholder url])
      ∧ Sleep delay ∉ events_for delay n i url
                        (requests_get (requests w) url)).
Proof.
  split_and!.
  - by rewrite scrape_loop_eq.
  - intros n i url html. apply events_for_sleep.
  - intros n records i url Hfalsy. rewrite loop_body_eq. cbn [snd]. split.
    + unfold step_raises, record_for. by rewrite Hfalsy.
    + apply events_for_sleep. by left.
Qed.

(** C1 fails on the code: the README has two links, both requests fail,
    both URLs are processed and get their record, and the program never
    pauses. *)
Lemma no_sleep_after_failed_fetch :
  let run := @scrape_all_tools (fixture_libs empty_soup) no_failures
    (fixture_network (Some md_two_links) dead_pages) nat patient
    None 1%nat start in
  run.2 = Some [placeholder (lit "http://b.example");
                placeholder (lit "https://a.example/x")]
  ∧ (Sleep 1%nat ∉ trace run.1)
  ∧ last (trace run.1) = Some (Print (WarnFailed (lit "https://a.example/x"))).
Proof.
  vm_compute. split_and!; [done| |done].
  intros Hin. repeat (apply elem_of_cons in Hin as [[=]|Hin]).
  by apply elem_of_nil in Hin.
Qed.

(** The cap, case by case. *)
Lemma apply_limit_cases {A} (k : Z) (l : list A) :
  apply_limit (Some k) l =
  match k with
  | Z0 => l
  | Zpos p => take (Pos.to_nat p) l
  | Zneg p => take (length l - Pos.to_nat p) l
  end.
Proof. by destruct k. Qed.

(** C4, as the code has it: with a positive [limit] the loop runs over
    exactly the first [limit] entries of the sorted list of links, so at
    most [limit] records are produced.  A [limit] of [0] is false like
    [None]: no cap is applied and the loop runs over every link.  (A
    negative [limit] is a slice from the end: the last [-limit] links
    are left out.)  The run returns one record for each URL of that
    list, unless the turn of a URL raises. *)
Theorem limit_keeps_first_entries `{Libs} `{Failures} `{Network} {T}
    `{Clock T} (limit : Z) (delay : T) (w : world T) (md : list N) :
  requests_get (requests w) GITHUB_URL = Some md →
  ∃ tool_urls,
    tool_urls =
      match limit with
      | Z0 => extract_tool_links md
      | Zpos p => take (Pos.to_nat p) (extract_tool_links md)
      | Zneg p =>
          take (length (extract_tool_links md) - Pos.to_nat p)
            (extract_tool_links md)
      end ∧
    scrape_all_tools (Some limit) delay w =
      scrape_loop delay tool_urls
        {| requests := S (requests w);
           trace := trace w ++ [Get GITHUB_URL;
                                Print (Found (length (extract_tool_links md)))] |} ∧
    ((0 < limit)%Z → (length tool_urls ≤ Z.to_nat limit)%nat) ∧
    (is_Some (scrape_all_tools (Some limit) delay w).2 ↔
       all_pass (raising delay (S (requests w))) tool_urls = true) ∧
    ∀ records,
      (scrape_all_tools (Some limit) delay w).2 = Some records →
      tool_url <$> records = tool_urls ∧
      ((0 < limit)%Z → (length records ≤ Z.to_nat limit)%nat).
Proof.
  intros Hmd. eexists. split; [reflexivity|].
  rewrite <- apply_limit_cases.
  assert (Hlen : (0 < limit)%Z →
    (length (apply_limit (Some limit) (extract_tool_links md))
     ≤ Z.to_nat limit)%nat).
  { rewrite apply_limit_cases. destruct limit as [|p|p]; [lia| |lia].
    intros _. rewrite length_take. cbn [Z.to_nat]. lia. }
  split_and!.
  - by apply scrape_all_tools_loop.
  - exact Hlen.
  - rewrite (scrape_all_tools_eq _ _ _ md) by done.
    destruct (all_pass _ _); split; done.
  - intros records. rewrite (scrape_all_tools_eq _ _ _ md) by done.
    destruct (all_pass _ _); [|done]. intros [= <-].
    by rewrite tool_urls_imap, length_imap.
Qed.

Lemma limit_keeps_first_entries_witness :
  ∃ tool_urls,
    tool_urls = take (Pos.to_nat 1) (extract_tool_links md_two_links) ∧
    @scrape_all_tools (fixture_libs acme_soup) no_failures
      (fixture_network (Some md_two_links) (one_page (lit "<html>")))
      nat patient (Some 1%Z) 1%nat start =
      @scrape_loop (fixture_libs acme_soup) no_failures
        (fixture_network (Some md_two_links) (one_page (lit "<html>")))
        nat patient 1%nat tool_urls
        {| requests := S (requests (@start nat));
           trace := trace (@start nat)
             ++ [Get GITHUB_URL;
                 Print (Found (length (extract_tool_links md_two_links)))] |} ∧
    ((0 < 1)%Z → (length tool_urls ≤ Z.to_nat 1)%nat) ∧
    (is_Some (@scrape_all_tools (fixture_libs acme_soup) no_failures
       (fixture_network (Some md_two_links) (one_page (lit "<html>")))
       nat patient (Some 1%Z) 1%nat start).2 ↔
       all_pass (@raising (fixture_libs acme_soup) no_failures
         (fixture_network (Some md_two_links) (one_page (lit "<html>")))
         nat patient 1%nat (S (requests (@start nat)))) tool_urls = true) ∧
    ∀ records,
      (@scrape_all_tools (fixture_libs acme_soup) no_failures
         (fixture_network (Some md_two_links) (one_page (lit "<html>")))
         nat patient (Some 1%Z) 1%nat start).2 = Some records →
      tool_url <$> records = tool_urls ∧
      ((0 < 1)%Z → (length records ≤ Z.to_nat 1)%nat).
Proof.
  apply (@limit_keeps_first_entries (fixture_libs acme_soup) no_failures
    (fixture_network (Some md_two_links) (one_page (lit "<html>")))
    nat patient 1%Z 1%nat start md_two_links).
  reflexivity.
Defined.

(** C4 fails on the code: [limit=0] is a limit that is not [None], the
    README has two links, and both are processed: the records are not
    those of the first 0 links and there are more than 0 of them. *)
Lemma limit_zero_is_no_limit :
  ∃ records,
    (@scrape_all_tools (fixture_libs empty_soup) no_failures
       (fixture_network (Some md_two_links) dead_pages) nat patient
       (Some 0%Z) 1%nat start).2 = Some records ∧
    tool_url <$> records ≠ take (Z.to_nat 0) (extract_tool_links md_two_links) ∧
    ¬ (length records ≤ Z.to_nat 0)%nat.
Proof.
  eexists. split; [vm_compute; reflexivity|]. split; [done|].
  cbn. lia.
Qed.

(** C6, as the code has it: the record appended for a URL whose request
    fails has the six other fields empty and the URL as [tool_url], and
    that turn never raises.  When no turn raises, the function returns
    one record per URL of the list it processes, in the order of the
    list, each with its URL as [tool_url].  When the turn of a URL
    raises (the parser rejects the page, [urlparse] or [urljoin] rejects
    a URL, [time.sleep] rejects the delay) the function raises and
    returns no record at all. *)
Theorem one_record_per_url `{Libs} `{Failures} `{Network} {T} `{Clock T}
    (limit : option Z) (delay : T) (w : world T) (md : list N) :
  requests_get (requests w) GITHUB_URL = Some md →
  (∀ n w' records i url,
     requests_get (requests w') url = None →
     (loop_body delay n (w', records) (i, url)).2 =
       Some (records ++
             [{| product_name := []; company := []; email := [];
                 linkedin_url := []; twitter_url := []; careers_page := [];
                 tool_url := url |}]))
  ∧ (all_pass (raising delay (S (requests w)))
       (apply_limit limit (extract_tool_links md)) = true →
     ∃ records,
       (scrape_all_tools limit delay w).2 = Some records ∧
       length records = length (apply_limit limit (extract_tool_links md)) ∧
       tool_url <$> records = apply_limit limit (extract_tool_links md) ∧
       ∀ i url,
         apply_limit limit (extract_tool_links md) !! i = Some url →
         requests_get (S (requests w) + i) url = None →
         records !! i =
           Some {| product_name := []; company := []; email := [];
                   linkedin_url := []; twitter_url := []; careers_page := [];
                   tool_url := url |})
  ∧ (all_pass (raising delay (S (requests w)))
       (apply_limit limit (extract_tool_links md)) = false →
     (scrape_all_tools limit delay w).2 = None).
Proof.
  intros Hmd. split_and!.
  - intros n w' records i url Hfail. rewrite loop_body_eq, Hfail. reflexivity.
  - intros Hpass. eexists.
    split; [by rewrite (scrape_all_tools_eq _ _ _ md), Hpass|].
    rewrite tool_urls_imap, length_imap. split_and!; [done|done|].
    intros i url Hi Hfail. rewrite list_lookup_imap, Hi.
    cbn [fmap option_fmap option_map]. by rewrite Hfail.
  - intros Hraise. by rewrite (scrape_all_tools_eq _ _ _ md), Hraise.
Qed.

Lemma one_record_per_url_witness :
  let L := fixture_libs acme_soup in
  let Net := fixture_network (Some md_two_links) (mixed_pages (lit "<html>")) in
  (∀ n w' records i url,
     @requests_get Net (requests w') url = None →
     (@loop_body L no_failures Net nat patient 1%nat n (w', records) (i, url)).2 =
       Some (records ++
             [{| product_name := []; company := []; email := [];
                 linkedin_url := []; twitter_url := []; careers_page := [];
                 tool_url := url |}]))
  ∧ (all_pass (@raising L no_failures Net nat patient 1%nat
                 (S (requests (@start nat))))
       (apply_limit None (extract_tool_links md_two_links)) = true →
     ∃ records,
       (@scrape_all_tools L no_failures Net nat patient None 1%nat start).2
         = Some records ∧
       length records
         = length (apply_limit None (extract_tool_links md_two_links)) ∧
       tool_url <$> records
         = apply_limit None (extract_tool_links md_two_links) ∧
       ∀ i url,
         apply_limit None (extract_tool_links md_two_links) !! i = Some url →
         @requests_get Net (S (requests (@start nat)) + i) url = None →
         records !! i =
           Some {| product_name := []; company := []; email := [];
                   linkedin_url := []; twitter_url := []; careers_page := [];
                   tool_url := url |})
  ∧ (all_pass (@raising L no_failures Net nat patient 1%nat
                 (S (requests (@start nat))))
       (apply_limit None (extract_tool_links md_two_links)) = false →
     (@scrape_all_tools L no_failures Net nat patient None 1%nat start).2
       = None).
Proof.
  cbn zeta.
  apply (@one_record_per_url (fixture_libs acme_soup) no_failures
    (fixture_network (Some md_two_links) (mixed_pages (lit "<html>")))
    nat patient None 1%nat start md_two_links).
  reflexivity.
Defined.

(** The run of the witness: the first URL is unreachable and gets the
    placeholder, the second gets the record of its page. *)
Example mixed_run_records :
  (@scrape_all_tools (fixture_libs acme_soup) no_failures
     (fixture_network (Some md_two_links) (mixed_pages (lit "<html>")))
     nat patient None 1%nat start).2 =
  Some [ placeholder (lit "http://b.example");
         {| product_name := lit "Acme"; company := lit "Acme Corp";
            email := []; linkedin_url := []; twitter_url := [];
            careers_page := []; tool_url := lit "https://a.example/x" |} ].
Proof. vm_compute. reflexivity. Qed.

(** C6 fails on the code: the README has two links and every page is
    markup the parser rejects; the first page is requested, the parser
    raises, and the function raises: no record is returned for either
    URL, and the second URL is never requested. *)
Lemma parser_rejection_ends_the_run :
  let run := @scrape_all_tools (fixture_libs empty_soup)
    (rejecting bad_markup)
    (fixture_network (Some md_two_links) (one_page bad_markup))
    nat patient None 1%nat start in
  run.2 = None
  ∧ ¬ (∃ records, run.2 = Some records
         ∧ length records = length (extract_tool_links md_two_links))
  ∧ requested (trace run.1) = [GITHUB_URL; lit "http://b.example"].
Proof.
  vm_compute. split_and!; [done| |done]. by intros (records & ? & _).
Qed.

(** C10: a request that succeeds with an empty body is handled by the
    loop like one that fails: the record appended is the placeholder,
    all fields empty but [tool_url], none of the four heuristics is
    consulted (the result does not depend on the libraries, which cannot
    raise here) and no pause is made; only the warning of [fetch_html]
    is absent. *)
Theorem empty_body_like_failed_fetch `{Libs} `{Failures} `{Network} {T}
    `{Clock T} (delay : T)
    (n : nat) (w : world T) (records : list ToolRecord) (i : nat)
    (url : list N) :
  requests_get (requests w) url = Some [] →
  loop_body delay n (w, records) (i, url) =
    ({| requests := S (requests w);
        trace := trace w ++ [Print (Processing i n url); Get url] |},
     Some (records ++ [{| product_name := []; company := []; email := [];
                          linkedin_url := []; twitter_url := [];
                          careers_page := []; tool_url := url |}])).
Proof. intros Hempty. rewrite loop_body_eq, Hempty. reflexivity. Qed.

Lemma empty_body_like_failed_fetch_witness :
  @loop_body (fixture_libs acme_soup) (rejecting [])
    (fixture_network None empty_pages) nat patient 1%nat 1%nat
    ({| requests := 1%nat; trace := [] |}, []) (1%nat, lit "https://a.example/x") =
    ({| requests := 2%nat;
        trace := [Print (Processing 1 1 (lit "https://a.example/x"));
                  Get (lit "https://a.example/x")] |},
     Some [{| product_name := []; company := []; email := [];
              linkedin_url := []; twitter_url := [];
              careers_page := []; tool_url := lit "https://a.example/x" |}]).
Proof.
  apply (@empty_body_like_failed_fetch (fixture_libs acme_soup) (rejecting [])
    (fixture_network None empty_pages) nat patient 1%nat 1%nat
    {| requests := 1%nat; trace := [] |} [] 1%nat (lit "https://a.example/x")).
  reflexivity.
Defined.

(** The same step when the request fails. *)
Lemma failed_fetch_body `{Libs} `{Failures} `{Network} {T} `{Clock T}
    (delay : T)
    (n : nat) (w : world T) (records : list ToolRecord) (i : nat)
    (url : list N) :
  requests_get (requests w) url = None →
  loop_body delay n (w, records) (i, url) =
    ({| requests := S (requests w);
        trace := trace w ++ [Print (Processing i n url); Get url;
                             Print (WarnFailed url)] |},
     Some (records ++ [placeholder url])).
Proof. intros Hfail. rewrite loop_body_eq, Hfail. reflexivity. Qed.

(** * More of the program *)

(** ** extract_tool_links: what the scan finds *)

Lemma url_pattern_consumed t g n :
  match_at url_pattern t = Some (g, n) →
  ∃ post, t = lit "(" ++ g ++ lit ")" ++ post ∧ n = S (S (length g)).
Proof.
  unfold match_at.
  destruct (match_items _ t) as [[segs r]|] eqn:E; [|done].
  intros [= <- <-]. apply match_items_sound in E as [-> Hok].
  apply Forall2_cons_inv_l in Hok as (l0 & segs0 & -> & Hok & ->).
  apply Forall2_cons_inv_l in Hok as (l1 & segs1 & -> & Hok & ->).
  apply Forall2_cons_inv_l in Hok as (opt_s & segs2 & _ & Hok & ->).
  apply Forall2_cons_inv_l in Hok as (l3 & segs3 & -> & Hok & ->).
  apply Forall2_cons_inv_l in Hok as (rest & segs4 & _ & Hok & ->).
  apply Forall2_cons_inv_l in Hok as (l5 & segs5 & -> & Hok & ->).
  apply Forall2_nil_inv_l in Hok as ->.
  change (concat (take _ (drop _ _)))
    with (lit "http" ++ opt_s ++ lit "://" ++ rest ++ []).
  change (concat _) with
    (lit "(" ++ lit "http" ++ opt_s ++ lit "://" ++ rest ++ lit ")" ++ []).
  rewrite !app_nil_r. exists r. split.
  - by rewrite <- !app_assoc.
  - rewrite !length_app. change (length (lit "(")) with 1%nat.
    change (length (lit ")")) with 1%nat. lia.
Qed.

Lemma url_pattern_needs_paren c (s : list N) :
  c ≠ chr "(" → match_at url_pattern (c :: s) = None.
Proof.
  intros Hc. destruct (match_at url_pattern (c :: s)) as [[g n]|] eqn:E; [|done].
  apply url_pattern_consumed in E as (post & Heq & _).
  injection Heq as -> _. done.
Qed.

Lemma findall_url_skip pre s :
  chr "(" ∉ pre → findall url_pattern (pre ++ s) = findall url_pattern s.
Proof.
  intros Hpre. apply findall_go_no_match. intros x [|c y] -> Hy; [done|].
  apply url_pattern_needs_paren. intros ->. apply Hpre.
  apply elem_of_app. right. left.
Qed.

(** A link is found where no parenthesis opens before it, and the scan
    goes on behind its closing parenthesis. *)
Lemma findall_url_cons pre u post :
  chr "(" ∉ pre → is_http_url u →
  findall url_pattern (pre ++ lit "(" ++ u ++ lit ")" ++ post)
  = u :: findall url_pattern post.
Proof.
  intros Hpre Hu. rewrite findall_url_skip by done.
  destruct (url_pattern_finds u post Hu) as [n Hm].
  pose proof Hm as (_ & _ & ->)%url_pattern_consumed.
  unfold findall. change (lit "(" ++ ?x) with (chr "(" :: x) in *.
  rewrite (findall_go_match _ _ _ _ _ Hm).
  rewrite (app_assoc u). replace (S (length u)) with (length (u ++ lit ")")).
  - by rewrite findall_go_skip.
  - rewrite length_app. change (length (lit ")")) with 1%nat. lia.
Qed.

(** X1: a link [(u)] before which the text opens no parenthesis adds its
    URL to the links of the text behind it: the URL is put at its place
    in the sorted list, unless it points into the source repository or
    is in the list already. *)
Theorem extract_tool_links_link (pre u post : list N) :
  chr "(" ∉ pre → is_http_url u →
  extract_tool_links (pre ++ lit "(" ++ u ++ lit ")" ++ post) =
  if decide (contains REPO u = false ∧ u ∉ extract_tool_links post)
  then sorted (u :: extract_tool_links post)
  else extract_tool_links post.
Proof.
  intros Hpre Hu.
  assert (Hin : ∀ v,
    v ∈ extract_tool_links (pre ++ lit "(" ++ u ++ lit ")" ++ post) ↔
    (v = u ∧ contains REPO u = false) ∨ v ∈ extract_tool_links post).
  { intros v. rewrite !extract_tool_links_elem_of, findall_url_cons by done.
    rewrite elem_of_cons. split.
    - intros [[->|Hv] Hrepo]; auto.
    - intros [[-> Hrepo]|[Hv Hrepo]]; auto. }
  case_decide as Hnew.
  - apply sorted_ext.
    + apply sorted_Sorted.
    + apply sorted_Sorted.
    + apply extract_tool_links_NoDup.
    + apply sorted_NoDup, NoDup_cons. split; [tauto|].
      apply extract_tool_links_NoDup.
    + intros v. rewrite Hin, sorted_elem_of, elem_of_cons. tauto.
  - apply sorted_ext.
    + apply sorted_Sorted.
    + apply sorted_Sorted.
    + apply extract_tool_links_NoDup.
    + apply extract_tool_links_NoDup.
    + intros v. rewrite Hin. split; [|auto].
      intros [[-> Hrepo]|Hv]; [|done].
      destruct (decide (u ∈ extract_tool_links post)); [done|tauto].
Qed.

Lemma extract_tool_links_link_witness :
  extract_tool_links
    (lit "See [Tool]" ++ lit "(" ++ lit "https://example.com/x" ++ lit ")"
     ++ lit " and (http://b.example).") =
  if decide (contains REPO (lit "https://example.com/x") = false
             ∧ lit "https://example.com/x"
               ∉ extract_tool_links (lit " and (http://b.example)."))
  then sorted (lit "https://example.com/x"
               :: extract_tool_links (lit " and (http://b.example)."))
  else extract_tool_links (lit " and (http://b.example).").
Proof.
  apply (extract_tool_links_link (lit "See [Tool]")
    (lit "https://example.com/x") (lit " and (http://b.example).")).
  - by_computation.
  - exists (lit "example.com/x"). split_and!.
    + done.
    + by_computation.
    + by right.
Defined.

(** X2: a text that opens no parenthesis has no links. *)
Theorem extract_tool_links_no_paren (markdown_text : list N) :
  chr "(" ∉ markdown_text → extract_tool_links markdown_text = [].
Proof.
  intros Hno. unfold extract_tool_links.
  rewrite <- (app_nil_r markdown_text), findall_url_skip by done.
  reflexivity.
Qed.

Lemma extract_tool_links_no_paren_witness :
  extract_tool_links (lit "# Tools - see https://example.com/x") = [].
Proof.
  apply extract_tool_links_no_paren.
  by_computation.
Defined.

(** ** guess_product_name_and_company: the cleanup loops *)

Lemma separators_nonempty sep : sep ∈ separators → sep ≠ [].
Proof.
  intros Hin ->. revert Hin. unfold separators.
  rewrite !elem_of_cons, elem_of_nil. by intros [|[|[|[|[|]]]]].
Qed.

(** The parts kept around a separator: not empty, without white space
    at the ends, without the separator, and part of the name. *)
Lemma parts_of_spec sep name p :
  sep ≠ [] → p ∈ parts_of sep name →
  p ≠ [] ∧ trimmed p ∧ contains sep p = false ∧ occurs_in p name.
Proof.
  intros Hsep (q & -> & [Hq Hin]%list_elem_of_filter)%list_elem_of_fmap.
  split_and!.
  - by destruct (strip q).
  - apply strip_trimmed.
  - destruct (contains sep (strip q)) eqn:E; [|done].
    apply contains_occurs in E.
    pose proof (occurs_in_trans _ _ _ E (strip_occurs q)) as Hc.
    apply contains_occurs in Hc.
    by rewrite (split_n_no_sep _ _ _ _ Hsep (Nat.le_refl _) Hin) in Hc.
  - eapply occurs_in_trans; [apply strip_occurs|by eapply split_n_occurs].
Qed.

Lemma cleanup_cases pick seps name :
  (∀ l, pick l = None → l = []) →
  (cleanup pick seps name = name ∧ Forall (inert name) seps)
  ∨ ∃ earlier sep later,
      seps = earlier ++ sep :: later ∧ Forall (inert name) earlier ∧
      contains sep name = true ∧
      pick (parts_of sep name) = Some (cleanup pick seps name).
Proof.
  intros Hnone. induction seps as [|sep seps IH]; cbn [cleanup].
  - left. by split.
  - destruct (contains sep name) eqn:Hc.
    + destruct (pick (parts_of sep name)) as [part|] eqn:Hp.
      * right. by exists [], sep, seps.
      * apply Hnone in Hp.
        destruct IH as [[-> Hall]|(earlier & s & later & -> & Hall & Hs & Hpick)].
        -- left. split; [done|]. constructor; [by right|done].
        -- right. exists (sep :: earlier), s, later.
           split_and!; try done. constructor; [by right|done].
    + destruct IH as [[-> Hall]|(earlier & s & later & -> & Hall & Hs & Hpick)].
      * left. split; [done|]. constructor; [by left|done].
      * right. exists (sep :: earlier), s, later.
        split_and!; try done. constructor; [by left|done].
Qed.

Lemma cleanup_cleaned pick name :
  (∀ l, pick l = None → l = []) → (∀ l x, pick l = Some x → x ∈ l) →
  (cleanup pick separators name = name ∧ Forall (inert name) separators)
  ∨ cleaned pick name (cleanup pick separators name).
Proof.
  intros Hnone Hsome.
  destruct (cleanup_cases pick separators name Hnone)
    as [?|(earlier & sep & later & Heq & Hall & Hc & Hp)]; [by left|].
  right. exists earlier, sep, later.
  assert (sep ∈ separators) as Hsep%separators_nonempty.
  { rewrite Heq. apply elem_of_app. right. left. }
  destruct (parts_of_spec sep name _ Hsep (Hsome _ _ Hp)) as (? & ? & ? & ?).
  by split_and!.
Qed.

Lemma head_None {A} (l : list A) : head l = None → l = [].
Proof. by destruct l. Qed.

Lemma head_Some_elem_of {A} (l : list A) x : head l = Some x → x ∈ l.
Proof. destruct l; [done|]. intros [= ->]. left. Qed.

Lemma last_Some_elem_of {A} (l : list A) x : last l = Some x → x ∈ l.
Proof.
  intros (l' & ->)%last_Some. apply elem_of_app. right. left.
Qed.

(** X3: each cleanup loop either leaves the name as it is, every
    separator being absent from it or having only white space around
    its occurrences, or returns the first (product) or last (company)
    part around the first separator of the list that applies; that part
    is not empty, has no white space at its ends, does not contain the
    separator, and is a piece of the name. *)
Theorem cleanup_spec (name : list N) :
  ((cleanup head separators name = name ∧ Forall (inert name) separators)
   ∨ cleaned head name (cleanup head separators name))
  ∧ ((cleanup last separators name = name ∧ Forall (inert name) separators)
     ∨ cleaned last name (cleanup last separators name)).
Proof.
  split.
  - apply cleanup_cleaned; [apply @head_None|apply @head_Some_elem_of].
  - apply cleanup_cleaned; [apply @last_None|apply @last_Some_elem_of].
Qed.

Lemma cleanup_truthy pick name :
  (∀ l, pick l = None → l = []) → (∀ l x, pick l = Some x → x ∈ l) →
  truthy name = true → truthy (cleanup pick separators name) = true.
Proof.
  intros Hnone Hsome Hname.
  destruct (cleanup_cleaned pick name Hnone Hsome)
    as [[-> _]|(_ & _ & _ & _ & _ & _ & _ & Hne & _)]; [done|].
  by destruct (cleanup pick separators name).
Qed.

(** X4: the names are filled whenever they can be.  The company name is
    empty only if the fallback, the network location without "www.", is
    empty; the product name is empty only if the company name is; and
    when the title has a character that is not white space neither name
    is empty. *)
Theorem guess_names_filled `{Libs} (html url : list N) :
  let names := guess_product_name_and_company html url in
  (names.2 = [] → replace (lit "www.") [] (urlparse_netloc url) = [])
  ∧ (names.1 = [] → names.2 = [])
  ∧ (∀ t, title_string (BeautifulSoup html) = Some t → strip t ≠ [] →
       names.1 ≠ [] ∧ names.2 ≠ []).
Proof.
  cbn zeta. unfold guess_product_name_and_company.
  set (title := match title_string _ with Some s => _ | None => _ end).
  set (og_site := meta_content_of (find_meta _ (lit "og:site_name"))).
  set (og_title := meta_content_of (find_meta _ (lit "og:title"))).
  set (pn := cleanup head separators (or_else og_title title)).
  set (cn := cleanup last separators (or_else og_site title)).
  cbn [fst snd]. split_and!.
  - destruct (truthy cn) eqn:E; [|done]. intros Hcn. by rewrite Hcn in E.
  - destruct (truthy pn) eqn:E; [|done]. intros Hpn. by rewrite Hpn in E.
  - intros t Ht Hstrip.
    assert (truthy title = true) as Htitle.
    { unfold title. rewrite Ht. destruct t as [|c t']; [done|].
      cbn [truthy]. by destruct (strip (c :: t')). }
    assert (truthy pn = true) as Hpn.
    { apply cleanup_truthy;
        [apply @head_None|apply @head_Some_elem_of|].
      unfold or_else. by destruct (truthy og_title) eqn:E. }
    assert (truthy cn = true) as Hcn.
    { apply cleanup_truthy;
        [apply @last_None|apply @last_Some_elem_of|].
      unfold or_else. by destruct (truthy og_site) eqn:E. }
    rewrite Hpn, Hcn. split; intros Hnil.
    + by rewrite Hnil in Hpn.
    + by rewrite Hnil in Hcn.
Qed.

(** X5: for a page without title, [og:title] and [og:site_name], both
    names come from the URL: each is its network location with every
    "www." taken out. *)
Theorem names_from_url `{Libs} (html url : list N) :
  title_string (BeautifulSoup html) = None →
  Forall (λ m, meta_property m ≠ Some (lit "og:title")
               ∧ meta_property m ≠ Some (lit "og:site_name"))
    (metas (BeautifulSoup html)) →
  guess_product_name_and_company html url =
  (replace (lit "www.") [] (urlparse_netloc url),
   replace (lit "www.") [] (urlparse_netloc url)).
Proof.
  intros Htitle Hmetas. unfold guess_product_name_and_company.
  rewrite !find_meta_absent, Htitle.
  - reflexivity.
  - eapply Forall_impl; [exact Hmetas|]. by intros m [_ ?].
  - eapply Forall_impl; [exact Hmetas|]. by intros m [? _].
Qed.

Lemma names_from_url_witness :
  @guess_product_name_and_company (fixture_libs empty_soup)
    [] (lit "https://www.example.com:8080/x")
  = (replace (lit "www.") []
       (@urlparse_netloc (fixture_libs empty_soup)
          (lit "https://www.example.com:8080/x")),
     replace (lit "www.") []
       (@urlparse_netloc (fixture_libs empty_soup)
          (lit "https://www.example.com:8080/x"))).
Proof.
  apply (@names_from_url (fixture_libs empty_soup)).
  - reflexivity.
  - constructor.
Defined.

(** ** extract_emails: what the addresses hold *)

Lemma extract_emails_elem_of `{Libs} html e :
  e ∈ extract_emails html ↔
  e ∈ mailto_targets (BeautifulSoup html)
  ∨ e ∈ findall plain_email_pattern html.
Proof.
  unfold extract_emails.
  rewrite sorted_elem_of, elem_of_elements, elem_of_union.
  by rewrite !elem_of_list_to_set.
Qed.

(** An address found by the pattern holds none of the characters the
    pattern leaves out. *)
Lemma is_email_chars e c :
  is_email e → c ∈ e →
  alnum c || one_of "._%+-@" c = true.
Proof.
  intros (user & domain & tld & -> & _ & Hu & _ & Hd & _ & Ht).
  rewrite !elem_of_app.
  rewrite Forall_forall in Hu, Hd, Ht.
  intros [Hc|[Hc|[Hc|[Hc|Hc]]]].
  - apply Hu in Hc. apply orb_prop in Hc as [->|Hc]; [done|].
    apply orb_true_iff. right. unfold one_of in *.
    apply bool_decide_eq_true. apply bool_decide_eq_true in Hc.
    revert Hc. change (lit "._%+-@") with (lit "._%+-" ++ lit "@").
    rewrite elem_of_app. tauto.
  - apply list_elem_of_singleton in Hc as ->. by vm_compute.
  - apply Hd in Hc. apply orb_prop in Hc as [->|Hc]; [done|].
    apply orb_true_iff. right. unfold one_of in *.
    apply bool_decide_eq_true. apply bool_decide_eq_true in Hc.
    revert Hc. rewrite !list_elem_of_In. cbn. tauto.
  - apply list_elem_of_singleton in Hc as ->. by vm_compute.
  - apply Ht in Hc. unfold alnum. unfold alpha in Hc. by rewrite Hc.
Qed.

Lemma mailto_address_occurs e h : mailto_address e h → occurs_in e h.
Proof. intros (query & -> & _). by exists (lit "mailto:"), query. Qed.

(** X6: no address returned holds a question mark: the target of a
    [mailto:] link is cut at the first one and the pattern does not
    accept it.  The empty string is returned as an address exactly when
    some link is a bare [mailto:], followed by nothing or by a question
    mark. *)
Theorem extract_emails_query_free `{Libs} (html : list N) :
  Forall (λ e, chr "?" ∉ e) (extract_emails html)
  ∧ ([] ∈ extract_emails html ↔
       ∃ a, a ∈ anchors (BeautifulSoup html) ∧
         (href a = lit "mailto:"
          ∨ startswith (lit "mailto:?") (href a) = true)).
Proof.
  split.
  - apply Forall_forall. intros e [Hm|Hf]%extract_emails_elem_of.
    + apply mailto_targets_elem_of in Hm as (a & _ & (q & _ & Hq & _)). done.
    + apply findall_email_pattern in Hf as [He _]. intros Hin.
      by pose proof (is_email_chars _ _ He Hin).
  - rewrite extract_emails_elem_of, mailto_targets_elem_of. split.
    + intros [(a & Ha & (q & Hh & _ & Hq))|Hf].
      * exists a. split; [done|]. rewrite Hh.
        destruct Hq as [->|[q' ->]]; [by left|right].
        apply (startswith_prefix (lit "mailto:?") q').
      * apply findall_email_pattern in Hf
          as [(user & domain & tld & Heq & _) _].
        by destruct user.
    + intros (a & Ha & Hh). left. exists a. split; [done|].
      destruct Hh as [Hh|Hh%startswith_app].
      * exists []. rewrite Hh. split_and!; [done|apply not_elem_of_nil|by left].
      * exists (chr "?" :: drop (length (lit "mailto:?")) (href a)).
        split_and!; [by rewrite Hh at 1|apply not_elem_of_nil|right; eauto].
Qed.

Lemma email_scrape_page `{Libs} html url :
  email (scrape_page html url) = join (lit "; ") (extract_emails html).
Proof.
  unfold scrape_page. destruct (guess_product_name_and_company _ _).
  by destruct (extract_social_links _).
Qed.

Lemma not_elem_of_occurs (c : N) (e h : list N) :
  c ∉ h → occurs_in e h → c ∉ e.
Proof.
  intros Hc (pre & post & ->) Hin. apply Hc.
  rewrite !elem_of_app. auto.
Qed.

(** X7: the [email] field of the record of a page can be read back.
    When no link target of the page holds a semicolon and at least one
    address was found, splitting the field at "; " gives the list of
    addresses; when none was found the field is the empty string. *)
Theorem email_field_round_trip `{Libs} (html url : list N) :
  Forall (λ a, chr ";" ∉ href a) (anchors (BeautifulSoup html)) →
  (extract_emails html ≠ [] →
     split (lit "; ") (email (scrape_page html url)) = extract_emails html)
  ∧ (extract_emails html = [] → email (scrape_page html url) = []).
Proof.
  intros Hanchors. rewrite email_scrape_page. split.
  - intros Hne. apply (split_join (chr ";") (lit " ")); [done|].
    apply Forall_forall. intros e [Hm|Hf]%extract_emails_elem_of.
    + apply mailto_targets_elem_of in Hm as (a & Ha & Haddr).
      rewrite Forall_forall in Hanchors.
      eapply not_elem_of_occurs; [by apply Hanchors|].
      by apply mailto_address_occurs.
    + apply findall_email_pattern in Hf as [He _]. intros Hin.
      by pose proof (is_email_chars _ _ He Hin).
  - by intros ->.
Qed.

Lemma email_field_round_trip_witness :
  let L := fixture_libs
    {| title_string := None; metas := [];
       anchors := [ {| href := lit "mailto:sales@acme.io?subject=hi";
                       get_text := lit "Sales" |} ] |} in
  let html := lit "write to info@acme.co.uk or sales@acme.io." in
  (@extract_emails L html ≠ [] →
     split (lit "; ") (email (@scrape_page L html (lit "https://acme.io/")))
     = @extract_emails L html)
  ∧ (@extract_emails L html = [] →
       email (@scrape_page L html (lit "https://acme.io/")) = []).
Proof.
  cbn zeta.
  apply (@email_field_round_trip (fixture_libs _)).
  cbn [anchors BeautifulSoup fixture_libs]. constructor; [|constructor].
  cbn [href]. by_computation.
Defined.

(** ** extract_social_links: what is returned *)

Lemma first_href_sound p l :
  first_href p l = []
  ∨ (p (first_href p l) = true ∧ ∃ a, a ∈ l ∧ href a = first_href p l).
Proof.
  induction l as [|a l IH]; [by left|].
  rewrite first_href_cons. destruct (p (href a)) eqn:E.
  - right. split; [done|]. exists a. split; [left|done].
  - destruct IH as [?|[? (b & Hb & ?)]]; [by left|right].
    split; [done|]. exists b. split; [by right|done].
Qed.

(** X17: the two links are never mixed up or made up.  Each result is
    the empty string or the target of a link of the page; the first, if
    not empty, contains "linkedin.com" and the second, if not empty,
    contains "twitter.com" or "x.com". *)
Theorem extract_social_links_sound `{Libs} (html : list N) :
  let links := extract_social_links html in
  (links.1 = []
   ∨ (contains (lit "linkedin.com") links.1 = true
      ∧ ∃ a, a ∈ anchors (BeautifulSoup html) ∧ href a = links.1))
  ∧ (links.2 = []
     ∨ (contains (lit "twitter.com") links.2
        || contains (lit "x.com") links.2 = true
        ∧ ∃ a, a ∈ anchors (BeautifulSoup html) ∧ href a = links.2)).
Proof.
  cbn zeta. unfold extract_social_links. rewrite social_loop. cbn [fst snd truthy].
  split.
  - apply (first_href_sound is_linkedin).
  - apply (first_href_sound is_twitter).
Qed.

(** ** find_careers_page *)

Lemma find_careers_page_eq `{Libs} html base_url :
  find_careers_page html base_url =
  match list_find (λ a, careers_hit a = true) (anchors (BeautifulSoup html)) with
  | Some (_, a) => urljoin base_url (href a)
  | None => []
  end.
Proof.
  unfold find_careers_page, careers_hit, or_else.
  assert (Hor : ∀ a, (if truthy (get_text a) then get_text a else [])
                     = get_text a).
  { intros a. by destruct (get_text a). }
  erewrite list_find_ext; [reflexivity|].
  intros a. cbn beta. by rewrite Hor.
Qed.

(** X8: the careers page is the target of the first link, in document
    order, whose target or text holds a keyword, resolved against the
    URL of the page; links behind it do not count, a link whose text is
    empty is judged by its target alone, and without such a link the
    result is the empty string. *)
Theorem find_careers_page_first `{Libs} (html base_url : list N)
    (earlier : list anchor) (a : anchor) (later : list anchor) :
  anchors (BeautifulSoup html) = earlier ++ a :: later →
  Forall (λ b, careers_hit b = false) earlier →
  careers_hit a = true →
  find_careers_page html base_url = urljoin base_url (href a).
Proof.
  intros Heq Hearlier Ha. rewrite find_careers_page_eq, Heq.
  assert (list_find (λ a, careers_hit a = true) (earlier ++ a :: later)
          = Some (length earlier, a)) as ->; [|done].
  apply list_find_Some. split_and!.
  - by rewrite list_lookup_middle.
  - done.
  - intros j b Hj Hlt. rewrite lookup_app_l in Hj by done.
    rewrite Forall_forall in Hearlier.
    apply list_elem_of_lookup_2, Hearlier in Hj. by rewrite Hj.
Qed.

Lemma find_careers_page_first_witness :
  @find_careers_page (fixture_libs jobs_soup) [] (lit "https://acme.com/about")
  = @urljoin (fixture_libs jobs_soup) (lit "https://acme.com/about")
      (lit "/jobs").
Proof.
  apply (@find_careers_page_first (fixture_libs jobs_soup) []
    (lit "https://acme.com/about")
    [ {| href := lit "/about"; get_text := lit "About" |} ]
    {| href := lit "/jobs"; get_text := lit "Open roles" |}
    [ {| href := lit "/team"; get_text := lit " careers " |} ]).
  - reflexivity.
  - constructor; [by vm_compute|constructor].
  - by vm_compute.
Defined.

(** X9: without a link whose target or text holds a keyword there is no
    careers page: the result is the empty string and [urljoin] is not
    consulted. *)
Theorem find_careers_page_none `{Libs} (html base_url : list N) :
  Forall (λ b, careers_hit b = false) (anchors (BeautifulSoup html)) →
  find_careers_page html base_url = [].
Proof.
  intros Hall. rewrite find_careers_page_eq.
  assert (list_find (λ a, careers_hit a = true) (anchors (BeautifulSoup html))
          = None) as ->; [|done].
  apply list_find_None. eapply Forall_impl; [exact Hall|].
  intros b Hb. by rewrite Hb.
Qed.

Lemma find_careers_page_none_witness :
  @find_careers_page (fixture_libs plain_soup) [] (lit "https://acme.com/") = [].
Proof.
  apply (@find_careers_page_none (fixture_libs plain_soup)).
  cbn [anchors BeautifulSoup fixture_libs plain_soup].
  repeat constructor; by vm_compute.
Defined.


(** ** scrape_all_tools: the run as a whole *)

Lemma omap_concat_imap {A B C} (f : B → option C) (l : list A)
    (g : nat → A → list B) :
  omap f (concat (imap g l)) = concat (imap (λ j x, omap f (g j x)) l).
Proof.
  revert g. induction l as [|x l IH]; intros g; [done|].
  cbn [imap concat]. rewrite omap_app. f_equal. apply (IH (g ∘ S)).
Qed.

Lemma concat_imap_singleton {A} (l : list A) :
  concat (imap (λ _ x, [x]) l) = l.
Proof.
  induction l as [|x l IH]; [done|]. cbn [imap concat app]. f_equal.
  exact IH.
Qed.

Lemma scrape_all_tools_run `{Libs} `{Failures} `{Network} {T} `{Clock T}
    limit (delay : T) w md :
  requests_get (requests w) GITHUB_URL = Some md →
  (scrape_all_tools limit delay w).1 =
  {| requests := S (requests w)
       + length (entered (raising delay (S (requests w)))
                   (apply_limit limit (extract_tool_links md)));
     trace := trace w
       ++ [Get GITHUB_URL; Print (Found (length (extract_tool_links md)))]
       ++ concat (imap (λ j url,
            events_for delay
              (length (apply_limit limit (extract_tool_links md))) (S j) url
              (requests_get (S (requests w) + j) url))
            (entered (raising delay (S (requests w)))
               (apply_limit limit (extract_tool_links md)))) |}.
Proof.
  intros Hmd. rewrite (scrape_all_tools_loop _ _ _ md) by done.
  rewrite scrape_loop_eq. cbn [fst requests trace].
  by rewrite <- !app_assoc.
Qed.

Lemma apply_limit_take {A} limit (l : list A) :
  ∃ n, apply_limit limit l = take n l.
Proof.
  destruct limit as [[|p|p]|]; cbn.
  - exists (length l). by rewrite firstn_all.
  - by eexists.
  - by eexists.
  - exists (length l). by rewrite firstn_all.
Qed.

Lemma apply_limit_prefix {A} limit (l : list A) :
  apply_limit limit l `prefix_of` l.
Proof. destruct (apply_limit_take limit l) as [n ->]. apply prefix_take. Qed.

Lemma apply_limit_NoDup md limit :
  NoDup (apply_limit limit (extract_tool_links md)).
Proof.
  destruct (apply_limit_take limit (extract_tool_links md)) as [n ->].
  pose proof (extract_tool_links_NoDup md) as Hnd.
  rewrite <- (take_drop n (extract_tool_links md)) in Hnd.
  by apply NoDup_app in Hnd as [? _].
Qed.

(** When a turn raises, it is the last turn that came. *)
Lemma entered_last raises urls :
  all_pass raises urls = false →
  ∃ j url, entered raises urls !! j = Some url
           ∧ length (entered raises urls) = S j
           ∧ raises j url = true.
Proof.
  revert raises. induction urls as [|url urls IH]; intros raises; [done|].
  cbn [all_pass entered]. destruct (raises O url) eqn:E; cbn [negb andb].
  - intros _. by exists O, url.
  - intros (j & u & Hj & Hlen & Hr)%IH. exists (S j), u.
    split_and!; [done|cbn; by rewrite Hlen|done].
Qed.

(** X10: after the README, the program requests the URLs of the list it
    processes one after the other, each once, in the order of the list,
    and nothing else: there are no retries, and no URL is in the list
    twice.  It requests them all when no turn raises; when the turn of a
    URL raises, that URL is the last one requested. *)
Theorem one_request_per_url `{Libs} `{Failures} `{Network} {T} `{Clock T}
    (limit : option Z) (delay : T) (w : world T) (md : list N) :
  requests_get (requests w) GITHUB_URL = Some md →
  ∃ processed,
    requested (trace (scrape_all_tools limit delay w).1) =
      requested (trace w) ++ GITHUB_URL :: processed
    ∧ requests (scrape_all_tools limit delay w).1
      = S (requests w + length processed)
    ∧ processed `prefix_of` apply_limit limit (extract_tool_links md)
    ∧ NoDup (apply_limit limit (extract_tool_links md))
    ∧ (is_Some (scrape_all_tools limit delay w).2 →
         processed = apply_limit limit (extract_tool_links md))
    ∧ ((scrape_all_tools limit delay w).2 = None →
         ∃ j url, processed !! j = Some url ∧ length processed = S j
           ∧ step_raises delay url
               (requests_get (S (requests w) + j) url) = true).
Proof.
  intros Hmd.
  exists (entered (raising delay (S (requests w)))
            (apply_limit limit (extract_tool_links md))).
  rewrite (scrape_all_tools_run _ _ _ md), (scrape_all_tools_eq _ _ _ md)
    by done.
  split_and!.
  - cbn [trace]. unfold requested. rewrite !omap_app, omap_concat_imap.
    cbn [omap list_omap app]. do 2 f_equal.
    etransitivity; [|apply concat_imap_singleton].
    f_equal. apply imap_ext. intros j url _.
    unfold events_for. rewrite !omap_app.
    by destruct (requests_get _ url) as [h|];
      [destruct (falsy_html _ || _)|].
  - cbn [requests]. lia.
  - apply entered_prefix.
  - apply apply_limit_NoDup.
  - destruct (all_pass _ _) eqn:E; [|by intros [??]].
    intros _. by apply entered_all.
  - destruct (all_pass _ _) eqn:E; [done|]. intros _.
    by apply entered_last in E.
Qed.

Lemma one_request_per_url_witness :
  let L := fixture_libs acme_soup in
  let F := rejecting bad_markup in
  let Net := fixture_network (Some md_two_links) (mixed_pages bad_markup) in
  let run := @scrape_all_tools L F Net nat patient None 1%nat start in
  ∃ processed,
    requested (trace run.1) =
      requested (trace (@start nat)) ++ GITHUB_URL :: processed
    ∧ requests run.1 = S (requests (@start nat) + length processed)
    ∧ processed `prefix_of` apply_limit None (extract_tool_links md_two_links)
    ∧ NoDup (apply_limit None (extract_tool_links md_two_links))
    ∧ (is_Some run.2 →
         processed = apply_limit None (extract_tool_links md_two_links))
    ∧ (run.2 = None →
         ∃ j url, processed !! j = Some url ∧ length processed = S j
           ∧ @step_raises L F nat patient 1%nat url
               (@requests_get Net (S (requests (@start nat)) + j) url) = true).
Proof.
  cbn zeta.
  apply (@one_request_per_url (fixture_libs acme_soup) (rejecting bad_markup)
    (fixture_network (Some md_two_links) (mixed_pages bad_markup))
    nat patient None 1%nat start md_two_links).
  reflexivity.
Defined.

(** X11: the lines printed by a run.  The first line gives the number of
    links found, before the cap; then each URL whose turn comes has its
    progress line [[i/N]], [i] counting from 1 and [N] being the number
    of URLs after the cap, followed by a warning exactly when its
    request failed.  The turns that come are all of them when no turn
    raises, and those up to the first that raises otherwise. *)
Theorem lines_of_the_run `{Libs} `{Failures} `{Network} {T} `{Clock T}
    (limit : option Z) (delay : T) (w : world T) (md : list N) :
  requests_get (requests w) GITHUB_URL = Some md →
  printed (trace (scrape_all_tools limit delay w).1) =
    printed (trace w)
    ++ Found (length (extract_tool_links md))
    :: concat (imap (λ j url,
         Processing (S j)
           (length (apply_limit limit (extract_tool_links md))) url
         :: (if requests_get (S (requests w) + j) url is None
             then [WarnFailed url] else []))
         (entered (raising delay (S (requests w)))
            (apply_limit limit (extract_tool_links md)))).
Proof.
  intros Hmd. rewrite (scrape_all_tools_run _ _ _ md) by done.
  cbn [trace]. unfold printed. rewrite !omap_app, omap_concat_imap.
  cbn [omap list_omap app]. do 3 f_equal. apply imap_ext. intros j url _.
  unfold events_for. rewrite !omap_app.
  by destruct (requests_get _ url) as [h|];
    [destruct (falsy_html _ || _)|].
Qed.

Lemma lines_of_the_run_witness :
  let L := fixture_libs acme_soup in
  let F := rejecting bad_markup in
  let Net := fixture_network (Some md_two_links) (mixed_pages bad_markup) in
  printed (trace (@scrape_all_tools L F Net nat patient None 1%nat start).1) =
    printed (trace (@start nat))
    ++ Found (length (extract_tool_links md_two_links))
    :: concat (imap (λ j url,
         Processing (S j)
           (length (apply_limit None (extract_tool_links md_two_links))) url
         :: (if @requests_get Net (S (requests (@start nat)) + j) url is None
             then [WarnFailed url] else []))
         (entered (@raising L F Net nat patient 1%nat
                     (S (requests (@start nat))))
            (apply_limit None (extract_tool_links md_two_links)))).
Proof.
  cbn zeta.
  apply (@lines_of_the_run (fixture_libs acme_soup) (rejecting bad_markup)
    (fixture_network (Some md_two_links) (mixed_pages bad_markup))
    nat patient None 1%nat start md_two_links).
  reflexivity.
Defined.

Lemma concat_imap_short {A B} (P : B → Prop) (l : list A)
    (g : nat → A → list B) :
  (∀ j x, (length (g j x) ≤ 1)%nat ∧ Forall P (g j x)) →
  (length (concat (imap g l)) ≤ length l)%nat
  ∧ Forall P (concat (imap g l)).
Proof.
  revert g. induction l as [|x l IH]; intros g Hg; [by split|].
  cbn [imap concat length]. destruct (Hg O x) as [Hlen Hall].
  destruct (IH (g ∘ S)) as [IHlen IHall]; [intros j y; apply Hg|].
  rewrite length_app. split; [lia|]. by apply Forall_app.
Qed.

(** X12: the pauses of a run.  The program pauses once after each URL
    whose turn comes, whose page was fetched and is not empty, and whose
    turn does not raise; it pauses nowhere else, so at most once per
    URL, and every pause lasts [delay].  With a delay that [time.sleep]
    rejects it never pauses. *)
Theorem pauses_of_the_run `{Libs} `{Failures} `{Network} {T} `{Clock T}
    (limit : option Z) (delay : T) (w : world T) (md : list N) :
  requests_get (requests w) GITHUB_URL = Some md →
  ∃ made,
    made = concat (imap (λ j url,
      if falsy_html (requests_get (S (requests w) + j) url)
         || step_raises delay url (requests_get (S (requests w) + j) url)
      then [] else [delay])
      (entered (raising delay (S (requests w)))
         (apply_limit limit (extract_tool_links md))))
    ∧ pauses (trace (scrape_all_tools limit delay w).1)
      = pauses (trace w) ++ made
    ∧ Forall (λ d, d = delay) made
    ∧ (length made
       ≤ length (apply_limit limit (extract_tool_links md)))%nat
    ∧ (sleep_rejects delay = true → made = []).
Proof.
  intros Hmd. eexists. split; [reflexivity|]. split_and!.
  - rewrite (scrape_all_tools_run _ _ _ md) by done.
    cbn [trace]. unfold pauses. rewrite !omap_app, omap_concat_imap.
    cbn [omap list_omap app]. do 2 f_equal. apply imap_ext. intros j url _.
    unfold events_for. rewrite !omap_app.
    by destruct (requests_get _ url) as [h|];
      [destruct (falsy_html _ || _)|].
  - apply (concat_imap_short (λ d, d = delay)). intros j url.
    destruct (_ || _); cbn; split; auto.
  - etransitivity.
    + apply (concat_imap_short (λ d, d = delay)). intros j url.
      destruct (_ || _); cbn; split; auto.
    + apply prefix_length, entered_prefix.
  - intros Hrej.
    match goal with |- ?made = [] =>
      assert (Forall (λ _, False) made) as Hnone
    end.
    { apply (concat_imap_short (λ _, False)). intros j url.
      unfold step_raises. rewrite Hrej, orb_true_r, andb_true_r.
      by destruct (falsy_html _); cbn; split; auto. }
    by destruct Hnone.
Qed.

Lemma pauses_of_the_run_witness :
  let L := fixture_libs acme_soup in
  let Net := fixture_network (Some md_two_links) (mixed_pages (lit "<html>")) in
  ∃ made,
    made = concat (imap (λ j url,
      if falsy_html (@requests_get Net (S (requests (@start nat)) + j) url)
         || @step_raises L no_failures nat patient 7%nat url
              (@requests_get Net (S (requests (@start nat)) + j) url)
      then [] else [7%nat])
      (entered (@raising L no_failures Net nat patient 7%nat
                  (S (requests (@start nat))))
         (apply_limit None (extract_tool_links md_two_links))))
    ∧ pauses (trace (@scrape_all_tools L no_failures Net nat patient
                       None 7%nat start).1)
      = pauses (trace (@start nat)) ++ made
    ∧ Forall (λ d, d = 7%nat) made
    ∧ (length made
       ≤ length (apply_limit None (extract_tool_links md_two_links)))%nat
    ∧ (@sleep_rejects nat patient 7%nat = true → made = []).
Proof.
  cbn zeta.
  apply (@pauses_of_the_run (fixture_libs acme_soup) no_failures
    (fixture_network (Some md_two_links) (mixed_pages (lit "<html>")))
    nat patient None 7%nat start md_two_links).
  reflexivity.
Defined.

(** X13: whatever the limit, the URLs the run turns to are the sorted
    links from the first up to some point, and so are the URLs of the
    records when the run returns: the cap never reorders the list and
    never leaves out a link before one it keeps; a limit at least as
    large as the number of links keeps them all.  The run returns
    exactly when no turn raises. *)
Theorem processed_is_prefix `{Libs} `{Failures} `{Network} {T} `{Clock T}
    (limit : option Z) (delay : T) (w : world T) (md : list N) :
  requests_get (requests w) GITHUB_URL = Some md →
  ∃ processed,
    requested (trace (scrape_all_tools limit delay w).1) =
      requested (trace w) ++ GITHUB_URL :: processed ∧
    processed `prefix_of` extract_tool_links md ∧
    (is_Some (scrape_all_tools limit delay w).2 ↔
       all_pass (raising delay (S (requests w)))
         (apply_limit limit (extract_tool_links md)) = true) ∧
    ∀ records,
      (scrape_all_tools limit delay w).2 = Some records →
      tool_url <$> records = processed ∧
      (tool_url <$> records) `prefix_of` extract_tool_links md ∧
      (∀ k, limit = Some k →
         (Z.of_nat (length (extract_tool_links md)) ≤ k)%Z →
         tool_url <$> records = extract_tool_links md).
Proof.
  intros Hmd.
  exists (entered (raising delay (S (requests w)))
            (apply_limit limit (extract_tool_links md))).
  rewrite (scrape_all_tools_run _ _ _ md), (scrape_all_tools_eq _ _ _ md)
    by done.
  split_and!.
  - cbn [trace]. unfold requested. rewrite !omap_app, omap_concat_imap.
    cbn [omap list_omap app]. do 2 f_equal.
    etransitivity; [|apply concat_imap_singleton].
    f_equal. apply imap_ext. intros j url _.
    unfold events_for. rewrite !omap_app.
    by destruct (requests_get _ url) as [h|];
      [destruct (falsy_html _ || _)|].
  - etransitivity; [apply entered_prefix|apply apply_limit_prefix].
  - destruct (all_pass _ _); split; done.
  - intros records. destruct (all_pass _ _) eqn:E; [|done]. intros [= <-].
    rewrite tool_urls_imap, (entered_all _ _ E). split_and!.
    + done.
    + apply apply_limit_prefix.
    + intros k -> Hk. rewrite apply_limit_cases.
      destruct k as [|p|p]; [done| |lia].
      apply take_ge. lia.
Qed.

Lemma processed_is_prefix_witness :
  let L := fixture_libs acme_soup in
  let Net := fixture_network (Some md_two_links) (mixed_pages (lit "<html>")) in
  let run := @scrape_all_tools L no_failures Net nat patient
               (Some (-1)%Z) 1%nat start in
  ∃ processed,
    requested (trace run.1) =
      requested (trace (@start nat)) ++ GITHUB_URL :: processed ∧
    processed `prefix_of` extract_tool_links md_two_links ∧
    (is_Some run.2 ↔
       all_pass (@raising L no_failures Net nat patient 1%nat
                   (S (requests (@start nat))))
         (apply_limit (Some (-1)%Z) (extract_tool_links md_two_links)) = true) ∧
    ∀ records,
      run.2 = Some records →
      tool_url <$> records = processed ∧
      (tool_url <$> records) `prefix_of` extract_tool_links md_two_links ∧
      (∀ k, Some (-1)%Z = Some k →
         (Z.of_nat (length (extract_tool_links md_two_links)) ≤ k)%Z →
         tool_url <$> records = extract_tool_links md_two_links).
Proof.
  cbn zeta.
  apply (@processed_is_prefix (fixture_libs acme_soup) no_failures
    (fixture_network (Some md_two_links) (mixed_pages (lit "<html>")))
    nat patient (Some (-1)%Z) 1%nat start md_two_links).
  reflexivity.
Defined.

Lemma company_empty `{Libs} html url :
  (guess_product_name_and_company html url).2 = [] →
  replace (lit "www.") [] (urlparse_netloc url) = [].
Proof.
  unfold guess_product_name_and_company. cbn [snd].
  destruct (truthy (cleanup last _ _)) eqn:E; [|done].
  intros Hc. by rewrite Hc in E.
Qed.

Lemma company_scrape_page `{Libs} html url :
  company (scrape_page html url)
  = (guess_product_name_and_company html url).2.
Proof.
  unfold scrape_page. destruct (guess_product_name_and_company _ _).
  by destruct (extract_social_links _).
Qed.

(** X14: a record without company name stands for a page that was not
    read.  If the record of a URL has an empty [company] although the
    network location of the URL, without "www.", is not empty, then the
    request for the URL failed or gave an empty page, and the record is
    the placeholder. *)
Theorem empty_company_means_no_page `{Libs} `{Failures} `{Network} {T}
    `{Clock T}
    (limit : option Z) (delay : T) (w : world T) (md : list N)
    (records : list ToolRecord) (i : nat) (r : ToolRecord) :
  requests_get (requests w) GITHUB_URL = Some md →
  (scrape_all_tools limit delay w).2 = Some records →
  records !! i = Some r →
  company r = [] →
  replace (lit "www.") [] (urlparse_netloc (tool_url r)) ≠ [] →
  falsy_html (requests_get (S (requests w) + i) (tool_url r)) = true
  ∧ r = placeholder (tool_url r).
Proof.
  intros Hmd Hrun Hi Hcompany Hnetloc.
  rewrite (scrape_all_tools_eq _ _ _ md) in Hrun by done.
  destruct (all_pass _ _); [|done].
  injection Hrun as <-. rewrite list_lookup_imap in Hi.
  destruct (apply_limit limit (extract_tool_links md) !! i) as [url|];
    [|done].
  injection Hi as <-. rewrite tool_url_record_for in Hnetloc |- *.
  change (S (requests w) + i)%nat with (S (requests w + i)).
  unfold record_for in *.
  destruct (falsy_html (requests_get (S (requests w + i)) url)); [done|].
  rewrite company_scrape_page in Hcompany. by apply company_empty in Hcompany.
Qed.

Lemma empty_company_means_no_page_witness :
  falsy_html (@requests_get
    (fixture_network (Some md_two_links) (mixed_pages (lit "<html>")))
    (S (requests (@start nat)) + 0)
    (tool_url (placeholder (lit "http://b.example")))) = true
  ∧ placeholder (lit "http://b.example")
    = placeholder (tool_url (placeholder (lit "http://b.example"))).
Proof.
  apply (@empty_company_means_no_page (fixture_libs acme_soup) no_failures
    (fixture_network (Some md_two_links) (mixed_pages (lit "<html>")))
    nat patient None 1%nat start md_two_links
    [ placeholder (lit "http://b.example");
      {| product_name := lit "Acme"; company := lit "Acme Corp";
         email := []; linkedin_url := []; twitter_url := [];
         careers_page := []; tool_url := lit "https://a.example/x" |} ]
    0%nat (placeholder (lit "http://b.example"))).
  - reflexivity.
  - vm_compute. reflexivity.
  - reflexivity.
  - reflexivity.
  - by vm_compute.
Defined.

(** ** The entry point *)

(** X15: when the README cannot be fetched the program stops at once:
    it has sent that one request, printed nothing, paused never, and no
    file is written or changed. *)
Theorem main_raises `{Libs} `{Failures} `{Network}
    (w : world QArith_base.Q) (fs : gmap (list N) (list N)) :
  requests_get (requests w) GITHUB_URL = None →
  main w fs =
  ({| requests := S (requests w); trace := trace w ++ [Get GITHUB_URL] |},
   fs, Raised).
Proof.
  intros Hfail. unfold main, scrape_all_tools, get_readme_markdown, http_get.
  by rewrite Hfail.
Qed.

Lemma main_raises_witness :
  @main (fixture_libs empty_soup) no_failures
    (fixture_network None dead_pages)
    start {[ lit "tools_data.csv" := lit "old" ]} =
  ({| requests := S (requests (@start QArith_base.Q));
      trace := trace (@start QArith_base.Q) ++ [Get GITHUB_URL] |},
   {[ lit "tools_data.csv" := lit "old" ]}, Raised).
Proof.
  apply (@main_raises (fixture_libs empty_soup) no_failures
    (fixture_network None dead_pages)).
  reflexivity.
Defined.

Lemma csv_json_names : lit "tools_data.csv" ≠ lit "tools_data.json".
Proof. by vm_compute. Qed.

(** X16: the files after a run in which the README is fetched and no
    turn raises.  The program ends with its last line; the JSON file
    holds the records, one per link; the CSV file holds the header line
    and one row per record when there is a record; when the README has
    no link it is not written, so a CSV file left by an earlier run
    stays as it was, beside a JSON file that now holds [[]].  No other
    file changes. *)
Theorem main_files `{Libs} `{Failures} `{Network}
    (w : world QArith_base.Q) (fs : gmap (list N) (list N)) (md : list N) :
  requests_get (requests w) GITHUB_URL = Some md →
  all_pass (raising one_second (S (requests w))) (extract_tool_links md)
    = true →
  ∃ records,
    (scrape_all_tools None one_second w).2 = Some records ∧
    tool_url <$> records = extract_tool_links md ∧
    (main w fs).2 = Completed ∧
    (main w fs).1.2 !! lit "tools_data.json" = Some (json_dump records) ∧
    (main w fs).1.2 !! lit "tools_data.csv" =
      (if records is [] then fs !! lit "tools_data.csv"
       else Some (header_line
                  ++ concat (csv_row <$> (row_values <$> records)))) ∧
    (extract_tool_links md = [] →
       (main w fs).1.2 !! lit "tools_data.json" = Some (lit "[]") ∧
       (main w fs).1.2 !! lit "tools_data.csv" = fs !! lit "tools_data.csv") ∧
    ∀ f, f ≠ lit "tools_data.csv" → f ≠ lit "tools_data.json" →
      (main w fs).1.2 !! f = fs !! f.
Proof.
  intros Hmd Hpass.
  pose proof (scrape_all_tools_eq None one_second w md Hmd) as Hrun.
  cbn [apply_limit] in Hrun. rewrite Hpass in Hrun.
  set (records := imap _ _) in Hrun. exists records.
  assert (tool_url <$> records = extract_tool_links md) as Hurls.
  { unfold records. apply tool_urls_imap. }
  unfold main. destruct (scrape_all_tools None one_second w) as [w' res].
  cbn [snd] in Hrun. rewrite Hrun. cbn [fst snd].
  unfold save_to_json.
  pose proof csv_json_names as Hne.
  split_and!; try done.
  - by rewrite lookup_insert_eq.
  - rewrite lookup_insert_ne by done.
    destruct records as [|r rs]; [done|].
    unfold save_to_csv. by rewrite lookup_insert_eq.
  - intros Hnone. rewrite Hnone in Hurls.
    destruct records; [|done]. split.
    + by rewrite lookup_insert_eq.
    + by rewrite lookup_insert_ne.
  - intros f Hcsv Hjson. rewrite lookup_insert_ne by done.
    destruct records as [|r rs]; [done|].
    unfold save_to_csv. by rewrite lookup_insert_ne.
Qed.

Lemma main_files_witness :
  let L := fixture_libs acme_soup in
  let Net := fixture_network (Some md_two_links) (mixed_pages (lit "<html>")) in
  let fs : gmap (list N) (list N) :=
    {[ lit "tools_data.csv" := lit "old"; lit "notes.txt" := lit "keep" ]} in
  ∃ records,
    (@scrape_all_tools L no_failures Net _ seconds None one_second start).2
      = Some records ∧
    tool_url <$> records = extract_tool_links md_two_links ∧
    (@main L no_failures Net start fs).2 = Completed ∧
    (@main L no_failures Net start fs).1.2 !! lit "tools_data.json"
      = Some (json_dump records) ∧
    (@main L no_failures Net start fs).1.2 !! lit "tools_data.csv" =
      (if records is [] then fs !! lit "tools_data.csv"
       else Some (header_line
                  ++ concat (csv_row <$> (row_values <$> records)))) ∧
    (extract_tool_links md_two_links = [] →
       (@main L no_failures Net start fs).1.2 !! lit "tools_data.json"
         = Some (lit "[]") ∧
       (@main L no_failures Net start fs).1.2 !! lit "tools_data.csv"
         = fs !! lit "tools_data.csv") ∧
    ∀ f, f ≠ lit "tools_data.csv" → f ≠ lit "tools_data.json" →
      (@main L no_failures Net start fs).1.2 !! f = fs !! f.
Proof.
  cbn zeta.
  apply (@main_files (fixture_libs acme_soup) no_failures
    (fixture_network (Some md_two_links) (mixed_pages (lit "<html>"))) start
    {[ lit "tools_data.csv" := lit "old"; lit "notes.txt" := lit "keep" ]}
    md_two_links).
  - reflexivity.
  - vm_compute. reflexivity.
Defined.

(** The CSV file of that run: the header, the placeholder of the URL
    that could not be fetched, the record of the page. *)
Example csv_of_a_run :
  (@main (fixture_libs acme_soup) no_failures
     (fixture_network (Some md_two_links) (mixed_pages (lit "<html>"))) start
     {[ lit "tools_data.csv" := lit "old" ]}).1.2 !! lit "tools_data.csv"
  = Some (header_line
          ++ lit ",,,,,,http://b.example" ++ [CR; LF]
          ++ lit "Acme,Acme Corp,,,,,https://a.example/x" ++ [CR; LF]).
Proof. vm_compute. reflexivity. Qed.

(** X18: when the README is fetched and the turn of a URL raises, the
    program ends with that exception: no file is written or changed,
    whatever records the turns before had collected, and the last line
    is not printed. *)
Theorem main_aborts `{Libs} `{Failures} `{Network}
    (w : world QArith_base.Q) (fs : gmap (list N) (list N)) (md : list N) :
  requests_get (requests w) GITHUB_URL = Some md →
  all_pass (raising one_second (S (requests w))) (extract_tool_links md)
    = false →
  (main w fs).2 = Raised ∧ (main w fs).1.2 = fs
  ∧ (scrape_all_tools None one_second w).2 = None.
Proof.
  intros Hmd Hraise.
  pose proof (scrape_all_tools_eq None one_second w md Hmd) as Hrun.
  cbn [apply_limit] in Hrun. rewrite Hraise in Hrun.
  unfold main. destruct (scrape_all_tools None one_second w) as [w' res].
  cbn [snd] in Hrun. by rewrite Hrun.
Qed.

Lemma main_aborts_witness :
  let L := fixture_libs acme_soup in
  let F := rejecting bad_markup in
  let Net := fixture_network (Some md_two_links) (mixed_pages bad_markup) in
  let fs : gmap (list N) (list N) := {[ lit "tools_data.csv" := lit "old" ]} in
  (@main L F Net start fs).2 = Raised ∧ (@main L F Net start fs).1.2 = fs
  ∧ (@scrape_all_tools L F Net _ seconds None one_second start).2 = None.
Proof.
  cbn zeta.
  apply (@main_aborts (fixture_libs acme_soup) (rejecting bad_markup)
    (fixture_network (Some md_two_links) (mixed_pages bad_markup)) start
    {[ lit "tools_data.csv" := lit "old" ]} md_two_links).
  - reflexivity.
  - vm_compute. reflexivity.
Defined.

(** ** The examples of the specification, run on the model *)

Example links_of_the_spec :
  extract_tool_links
    (lit "See [Tool](https://example.com/x) and [Repo](https://github.com/yousefebrahimi0/1000-AI-collection-tools/blob/main/x)")
  = [lit "https://example.com/x"].
Proof. vm_compute. reflexivity. Qed.

Example links_sorted_once :
  extract_tool_links
    (lit "(https://b.example/) (http://c.example) (https://b.example/) (ftp://x) ( https://y )")
  = [lit "http://c.example"; lit "https://b.example/"].
Proof. vm_compute. reflexivity. Qed.

Example social_of_the_spec :
  @extract_social_links
    (fixture_libs
       {| title_string := None; metas := [];
          anchors := [ {| href := lit "https://linkedin.com/a"; get_text := [] |};
                       {| href := lit "https://netflix.com/"; get_text := [] |};
                       {| href := lit "https://linkedin.com/b"; get_text := [] |} ] |})
    []
  = (lit "https://linkedin.com/a", lit "https://netflix.com/").
Proof. vm_compute. reflexivity. Qed.

Example emails_of_a_page :
  @extract_emails
    (fixture_libs
       {| title_string := None; metas := [];
          anchors := [ {| href := lit "mailto:sales@acme.io?subject=hi";
                          get_text := [] |} ] |})
    (lit "write to info@acme.co.uk, or info@acme.co.uk1 and sales@acme.io.")
  = [lit "info@acme.co.uk"; lit "sales@acme.io"].
Proof. vm_compute. reflexivity. Qed.

Example separators_in_order :
  @guess_product_name_and_company
    (fixture_libs
       {| title_string := Some (lit "  Fast-Notes | Acme Inc ");
          metas := []; anchors := [] |})
    [] (lit "https://www.acme.example/")
  = (lit "Fast-Notes", lit "Acme Inc").
Proof. vm_compute. reflexivity. Qed.

Example slice_from_the_end : slice_to [1; 2; 3] (-1) = [1; 2] ∧ slice_to [1; 2; 3] (-5) = [].
Proof. done. Qed.

Example csv_quoting :
  csv_row [lit "a,b"; [dquote]; lit "c"]
  = [dquote] ++ lit "a,b" ++ [dquote; comma; dquote; dquote; dquote; dquote; comma]
    ++ lit "c" ++ [CR; LF].
Proof. vm_compute. reflexivity. Qed.

Example json_of_one_record :
  json_dump [placeholder [dquote; 233; LF; 1]]
  = lit "[" ++ [LF] ++ lit "  {" ++ [LF]
    ++ lit "    " ++ json_string (lit "product_name") ++ lit ": " ++ [dquote; dquote; comma; LF]
    ++ lit "    " ++ json_string (lit "company") ++ lit ": " ++ [dquote; dquote; comma; LF]
    ++ lit "    " ++ json_string (lit "email") ++ lit ": " ++ [dquote; dquote; comma; LF]
    ++ lit "    " ++ json_string (lit "linkedin_url") ++ lit ": " ++ [dquote; dquote; comma; LF]
    ++ lit "    " ++ json_string (lit "twitter_url") ++ lit ": " ++ [dquote; dquote; comma; LF]
    ++ lit "    " ++ json_string (lit "careers_page") ++ lit ": " ++ [dquote; dquote; comma; LF]
    ++ lit "    " ++ json_string (lit "tool_url") ++ lit ": "
    ++ [dquote; backslash; dquote; 233; backslash] ++ lit "n" ++ [backslash]
    ++ lit "u0001" ++ [dquote; LF]
    ++ lit "  }" ++ [LF] ++ lit "]".
Proof. vm_compute. reflexivity. Qed.

Example negative_delay_ends_the_run :
  let run := @scrape_all_tools (fixture_libs acme_soup) no_failures
    (fixture_network (Some md_two_links) (mixed_pages (lit "<html>")))
    Z whole_seconds None (-1)%Z start in
  run.2 = None ∧ pauses (trace run.1) = []
  ∧ requested (trace run.1)
    = [GITHUB_URL; lit "http://b.example"; lit "https://a.example/x"].
Proof. vm_compute. done. Qed.

Example rejected_url_ends_the_run :
  let F := {| parser_rejects := λ _, false;
              urlparse_rejects := λ url, contains (lit "[") url;
              urljoin_rejects := λ _ _, false |} in
  (@scrape_all_tools (fixture_libs empty_soup) F
     (fixture_network (Some (lit "[A](http://[a) [B](http://b.example)"))
        (one_page (lit "<p>")))
     nat patient None 1%nat start).2 = None.
Proof. vm_compute. done. Qed.
